(** * InjectKit: registry validation and container resolution

    A shallow embedding of [src/registry.ts] (the build-time graph validator)
    and [src/container.ts] (the resolution and lifetime engine), with the
    data types of [src/internal.ts] and [src/interfaces.ts].

    Conventions of the embedding.
    - An [Identifier] is a class object compared by reference; it is modelled
      by its [name], so distinct classes are taken to carry distinct names.
    - A JavaScript [Map] iterates in insertion order; the registration map is
      an association list with [Map]'s [get]/[has]/[set].  The instance cache
      of a container is only ever looked up and set, so it is a [gmap].
    - [throw] is the [Thrown] result; mutations made before a [throw] persist.
    - Recursion that the source does not bound ([checkCircularDependencies],
      [get], the parent walks) takes a [fuel] budget; [None] means that the
      budget was exhausted, nothing else.
    - The fluent builder and the reflection of constructor parameters are
      outside the embedding: [build] receives the finished registrations in
      registration order. *)

From Stdlib Require Import ZArith Lia.
From stdpp Require Import base strings list gmap.

Local Open Scope string_scope.
Local Open Scope list_scope.

(** ** Identifiers, lifetimes and values *)

Definition Identifier := string.

Definition name (id : Identifier) : string := id.

(** The abstract class [Container] of [interfaces.ts], used as an identifier. *)
Definition Container : Identifier := "Container".

Inductive Lifetime := lt_singleton | lt_transient | lt_scoped.

#[global] Instance Lifetime_eq_dec : EqDecision Lifetime.
Proof. solve_decision. Defined.

(** Run-time values.  [VObj] is an object allocated by the engine with [new],
    [VHost] an object handed in by the caller (a pre-built instance, a mock),
    [VContainer] a container node.  Numbers are integers: [NaN] and fractions
    play no part in resolution. *)
Inductive Value :=
| VUndefined
| VNull
| VBool (b : bool)
| VNum (n : Z)
| VStr (s : string)
| VObj (r : nat)
| VHost (h : nat)
| VContainer (c : nat).

#[global] Instance Value_eq_dec : EqDecision Value.
Proof. solve_decision. Defined.

(** JavaScript truthiness, as tested by [if (instance)] and [!instance]. *)
Definition truthy (v : Value) : bool :=
  match v with
  | VUndefined | VNull => false
  | VBool b => b
  | VNum n => negb (n =? 0)%Z
  | VStr s => negb (String.eqb s "")
  | VObj _ | VHost _ | VContainer _ => true
  end.

(** ** Constructors, factories and registrations *)

(** A class, as [new] sees it: constructing it allocates an object that
    keeps the arguments and runs no code of the container.  What the class
    extends decides whether [instance instanceof Array] or
    [instance instanceof Map] holds for its instances. *)
Inductive Shape := Plain | ArrayLike | MapLike.

Record Constructor := { class_name : string; extends : Shape }.

(** A factory body: it may return a value, resolve an identifier through the
    container it was handed, or construct an object. *)
Inductive FProg :=
| FRet (v : Value)
| FGet (id : Identifier) (k : Value -> FProg)
| FNew (ctor : Constructor) (args : list Value) (k : Value -> FProg).

(** [Factory<T> = (container: Container) => T]. *)
Definition Factory := nat -> FProg.

Inductive CollectionDependencies :=
| CollArray (ids : list Identifier)
| CollMap (entries : list (Value * Identifier)).

(** [Registration<T>] of [internal.ts]. *)
Record Registration := {
  constructor : option Constructor;
  factory : option Factory;
  instance : option Value;
  lifetime : Lifetime;
  dependencies : list Identifier;
  ctorDependencies : list Identifier;
  collectionDependencies : option CollectionDependencies
}.

(** ** JavaScript [Map] in insertion order *)

Section JsMap.
Context {K V : Type} `{EqDecision K}.

Fixpoint jsmap_get (m : list (K * V)) (k : K) : option V :=
  match m with
  | [] => None
  | (k', v) :: rest => if decide (k' = k) then Some v else jsmap_get rest k
  end.

Definition jsmap_has (m : list (K * V)) (k : K) : bool :=
  match jsmap_get m k with Some _ => true | None => false end.

Fixpoint jsmap_delete (m : list (K * V)) (k : K) : list (K * V) :=
  match m with
  | [] => []
  | (k', v) :: rest => if decide (k' = k) then rest else (k', v) :: jsmap_delete rest k
  end.

(** [set] keeps the position of an existing key and appends a new one. *)
Fixpoint jsmap_set (m : list (K * V)) (k : K) (v : V) : list (K * V) :=
  match m with
  | [] => [(k, v)]
  | (k', v') :: rest =>
      if decide (k' = k) then (k, v) :: rest else (k', v') :: jsmap_set rest k v
  end.
End JsMap.

Definition RegMap := list (Identifier * Registration).

(** ** Errors *)

Inductive Error :=
| RegistrationExists (id : Identifier)
| RegistrationNotFound (id : Identifier)
| MissingDependencies (id : Identifier) (names : list string)
| CircularDependency (path : list string)
| InvalidRegistration (id : Identifier).

(** The text of the thrown [Error]. *)
Definition message (e : Error) : string :=
  match e with
  | RegistrationExists id => "Registration for " +:+ name id +:+ " already exists"
  | RegistrationNotFound id => "Registration for " +:+ name id +:+ " not found"
  | MissingDependencies id names =>
      "Missing dependencies for " +:+ name id +:+ ": " +:+ String.concat ", " names
  | CircularDependency path => "Circular dependency found: " +:+ String.concat " -> " path
  | InvalidRegistration id => "Invalid registration for " +:+ name id
  end.

Inductive Result (A : Type) :=
| Ok (a : A)
| Thrown (e : Error).
Arguments Ok {A} a.
Arguments Thrown {A} e.

(** ** The world: one scope tree *)

Inductive Body :=
| BPlain
| BArray (elems : list Value)
| BMap (entries : list (Value * Value)).

Record Obj := { obj_class : string; obj_args : list Value; obj_body : Body }.

(** [InjectKitContainer]: its [instances] cache and its [parent]. *)
Record Node := { instances : gmap Identifier Value; parent : option nat }.

(** All nodes of one tree share one [registrations] map by reference. *)
Record World := {
  registrations : RegMap;
  nodes : list Node;
  objects : list Obj
}.

(** ** Registry: [register], [remove], [isRegistered] *)

(** What a builder that has not been configured builds to. *)
Definition unconfigured : Registration :=
  {| constructor := None; factory := None; instance := None;
     lifetime := lt_transient; dependencies := []; ctorDependencies := [];
     collectionDependencies := None |}.

Definition isRegistered (regs : RegMap) (id : Identifier) : bool :=
  jsmap_has regs id.

(** [register] reserves the identifier for a builder that is configured
    afterwards. *)
Definition register (regs : RegMap) (id : Identifier) : Result RegMap :=
  if jsmap_has regs id then Thrown (RegistrationExists id)
  else Ok (jsmap_set regs id unconfigured).

Definition remove (regs : RegMap) (id : Identifier) : Result RegMap :=
  if jsmap_has regs id then Ok (jsmap_delete regs id)
  else Thrown (RegistrationNotFound id).

(** ** Registry: [verifyRegistrations] *)

(** The inner loop: the names of the dependencies that are not registered. *)
Fixpoint push_missing (regs : RegMap) (deps : list Identifier)
    (missingDependencies : list string) : list string :=
  match deps with
  | [] => missingDependencies
  | dependency :: rest =>
      if jsmap_has regs dependency
      then push_missing regs rest missingDependencies
      else push_missing regs rest (missingDependencies ++ [name dependency])
  end.

(** The outer loop over [registrations.entries()]; [missingDependencies] is
    declared once, outside the loop, as in the source. *)
Fixpoint verify_entries (regs : RegMap) (entries : list (Identifier * Registration))
    (missingDependencies : list string) : Result unit :=
  match entries with
  | [] => Ok tt
  | (id, config) :: rest =>
      let missingDependencies := push_missing regs (dependencies config) missingDependencies in
      if (0 <? length missingDependencies)%nat
      then Thrown (MissingDependencies id missingDependencies)
      else verify_entries regs rest missingDependencies
  end.

Definition verifyRegistrations (regs : RegMap) : Result unit :=
  verify_entries regs regs [].

(** ** Registry: [verifyNoCircularDependencies] *)

(** The [for] loop of [checkCircularDependencies]; [rec] is the recursive
    call with [id] fixed, [path] the names traversed so far. *)
Fixpoint check_each (rec : Registration -> list string -> option (Result unit))
    (regs : RegMap) (id : Identifier) (path : list string)
    (deps : list Identifier) : option (Result unit) :=
  match deps with
  | [] => Some (Ok tt)
  | dependency :: rest =>
      if decide (id = dependency)
      then Some (Thrown (CircularDependency ([name id] ++ path ++ [name id])))
      else
        match jsmap_get regs dependency with
        | Some dependencyRegistration =>
            if (0 <? length (dependencies dependencyRegistration))%nat
            then
              match rec dependencyRegistration (path ++ [name dependency]) with
              | Some (Ok _) => check_each rec regs id path rest
              | other => other
              end
            else check_each rec regs id path rest
        | None => check_each rec regs id path rest
        end
  end.

Fixpoint checkCircularDependencies (fuel : nat) (regs : RegMap) (id : Identifier)
    (registration : Registration) (path : list string) : option (Result unit) :=
  match fuel with
  | O => None
  | S fuel' =>
      check_each (checkCircularDependencies fuel' regs id) regs id path
        (dependencies registration)
  end.

Fixpoint check_entries (fuel : nat) (regs : RegMap)
    (entries : list (Identifier * Registration)) : option (Result unit) :=
  match entries with
  | [] => Some (Ok tt)
  | (id, config) :: rest =>
      match checkCircularDependencies fuel regs id config [] with
      | Some (Ok _) => check_entries fuel regs rest
      | other => other
      end
  end.

Definition verifyNoCircularDependencies (fuel : nat) (regs : RegMap) : option (Result unit) :=
  check_entries fuel regs regs.

(** ** Registry: [build] *)

(** The registration that [build] adds for [Container]. *)
Definition container_registration : Registration :=
  {| lifetime := lt_singleton;
     dependencies := [];
     ctorDependencies := [];
     collectionDependencies := None;
     constructor := None;
     factory := Some (fun container => FRet (VContainer container));
     instance := None |}.

(** The map that [build] validates and hands to the container. *)
Definition with_container (regs : RegMap) : RegMap :=
  if jsmap_has regs Container then regs
  else jsmap_set regs Container container_registration.

(** [new InjectKitContainer(registrations)]: the root is node [0]. *)
Definition new_container (regs : RegMap) : World :=
  {| registrations := regs;
     nodes := [ {| instances := ∅; parent := None |} ];
     objects := [] |}.

Definition build (fuel : nat) (regs : RegMap) : option (Result World) :=
  let registrations := with_container regs in
  match verifyRegistrations registrations with
  | Thrown e => Some (Thrown e)
  | Ok _ =>
      match verifyNoCircularDependencies fuel registrations with
      | None => None
      | Some (Thrown e) => Some (Thrown e)
      | Some (Ok _) => Some (Ok (new_container registrations))
      end
  end.

(** ** Container: state and error monad *)

(** A computation reads and mutates the world and returns or throws;
    [None] is an exhausted fuel budget. *)
Definition M (A : Type) : Type := World -> option (Result A * World).

Definition ret {A} (a : A) : M A := fun w => Some (Ok a, w).

Definition throw {A} (e : Error) : M A := fun w => Some (Thrown e, w).

Definition bind {A B} (m : M A) (k : A -> M B) : M B :=
  fun w =>
    match m w with
    | None => None
    | Some (Thrown e, w') => Some (Thrown e, w')
    | Some (Ok a, w') => k a w'
    end.

Notation "x <- m ;; k" := (bind m (fun x => k))
  (at level 100, m at next level, right associativity).

(** ** Container: primitive reads and writes *)

Definition empty_node : Node := {| instances := ∅; parent := None |}.

Definition node_at (w : World) (c : nat) : Node :=
  default empty_node (nodes w !! c).

(** [container.instances.get(id)]: [undefined] when the key is absent. *)
Definition cache_get (w : World) (c : nat) (id : Identifier) : Value :=
  default VUndefined (instances (node_at w c) !! id).

Definition set_instance (id : Identifier) (v : Value) (nd : Node) : Node :=
  {| instances := <[id := v]> (instances nd); parent := parent nd |}.

(** [container.instances.set(id, instance)]. *)
Definition cache_set (c : nat) (id : Identifier) (v : Value) (w : World) : World :=
  {| registrations := registrations w;
     nodes := alter (set_instance id v) c (nodes w);
     objects := objects w |}.

Definition initial_body (s : Shape) : Body :=
  match s with
  | Plain => BPlain
  | ArrayLike => BArray []
  | MapLike => BMap []
  end.

(** [new ctor(...args)]: a fresh object; an array- or map-shaped instance
    starts empty. *)
Definition new_object (ctor : Constructor) (args : list Value) : M Value :=
  fun w =>
    Some (Ok (VObj (length (objects w))),
          {| registrations := registrations w;
             nodes := nodes w;
             objects := objects w ++
               [ {| obj_class := class_name ctor; obj_args := args;
                    obj_body := initial_body (extends ctor) |} ] |}).

Definition update_body (f : Body -> Body) (o : Obj) : Obj :=
  {| obj_class := obj_class o; obj_args := obj_args o; obj_body := f (obj_body o) |}.

Definition push_body (v : Value) (b : Body) : Body :=
  match b with
  | BArray elems => BArray (elems ++ [v])
  | other => other
  end.

Definition set_body (key v : Value) (b : Body) : Body :=
  match b with
  | BMap entries => BMap (jsmap_set entries key v)
  | other => other
  end.

Definition update_object (r : nat) (f : Body -> Body) : M unit :=
  fun w =>
    Some (Ok tt,
          {| registrations := registrations w;
             nodes := nodes w;
             objects := alter (update_body f) r (objects w) |}).

(** [instance.push(v)] and [instance.set(key, v)]. *)
Definition array_push (r : nat) (v : Value) : M unit := update_object r (push_body v).
Definition map_set (r : nat) (key v : Value) : M unit := update_object r (set_body key v).

(** [instance instanceof Array] ([ArrayLike]), [instance instanceof Map]
    ([MapLike]): the object the value refers to, if any. *)
Definition instanceof (w : World) (v : Value) (s : Shape) : option nat :=
  match v with
  | VObj r =>
      match obj_body <$> objects w !! r, s with
      | Some (BArray _), ArrayLike => Some r
      | Some (BMap _), MapLike => Some r
      | _, _ => None
      end
  | _ => None
  end.

(** ** Container: [getScopedInstance] and the walk to the root *)

Fixpoint getScopedInstance (fuel : nat) (w : World) (this : nat) (id : Identifier)
    : option Value :=
  match fuel with
  | O => None
  | S fuel' =>
      let instance := cache_get w this id in
      match parent (node_at w this) with
      | Some p =>
          if negb (truthy instance) then getScopedInstance fuel' w p id
          else Some instance
      | None => Some instance
      end
  end.

(** [while (container.parent) container = container.parent]. *)
Fixpoint root_of (fuel : nat) (w : World) (container : nat) : option nat :=
  match fuel with
  | O => None
  | S fuel' =>
      match parent (node_at w container) with
      | Some p => root_of fuel' w p
      | None => Some container
      end
  end.

(** ** Container: [createInstance] *)

Section CreateInstance.
(** [this.get], the recursive call. *)
Variable this_get : Identifier -> M Value.

Fixpoint resolve_all (deps : list Identifier) : M (list Value) :=
  match deps with
  | [] => ret []
  | dependency :: rest =>
      v <- this_get dependency ;;
      vs <- resolve_all rest ;;
      ret (v :: vs)
  end.

Fixpoint run_factory (p : FProg) : M Value :=
  match p with
  | FRet v => ret v
  | FGet id k => v <- this_get id ;; run_factory (k v)
  | FNew ctor args k => v <- new_object ctor args ;; run_factory (k v)
  end.

Fixpoint push_all (r : nat) (deps : list Identifier) : M unit :=
  match deps with
  | [] => ret tt
  | dependency :: rest =>
      v <- this_get dependency ;;
      _ <- array_push r v ;;
      push_all r rest
  end.

Fixpoint set_all (r : nat) (entries : list (Value * Identifier)) : M unit :=
  match entries with
  | [] => ret tt
  | (key, dependency) :: rest =>
      v <- this_get dependency ;;
      _ <- map_set r key v ;;
      set_all r rest
  end.

(** The choice of creation strategy. *)
Definition construct (this : nat) (id : Identifier) (registration : Registration)
    : M Value :=
  match constructor registration with
  | Some ctor =>
      args <- resolve_all (ctorDependencies registration) ;;
      new_object ctor args
  | None =>
      match factory registration with
      | Some f => run_factory (f this)
      | None =>
          match instance registration with
          | Some v => if truthy v then ret v else throw (InvalidRegistration id)
          | None => throw (InvalidRegistration id)
          end
      end
  end.

(** The collection dependencies, resolved into the instance. *)
Definition populate (registration : Registration) (inst : Value) : M unit :=
  fun w =>
    match collectionDependencies registration with
    | Some (CollArray ids) =>
        match instanceof w inst ArrayLike with
        | Some r => push_all r ids w
        | None => ret tt w
        end
    | Some (CollMap entries) =>
        match instanceof w inst MapLike with
        | Some r => set_all r entries w
        | None => ret tt w
        end
    | None => ret tt w
    end.

(** Caching by lifetime. *)
Definition store (fuel : nat) (this : nat) (id : Identifier)
    (registration : Registration) (inst : Value) : M unit :=
  fun w =>
    match lifetime registration with
    | lt_singleton =>
        match root_of fuel w this with
        | Some container => Some (Ok tt, cache_set container id inst w)
        | None => None
        end
    | lt_scoped => Some (Ok tt, cache_set this id inst w)
    | lt_transient => Some (Ok tt, w)
    end.

Definition createInstance (fuel : nat) (this : nat) (id : Identifier)
    (registration : Registration) : M Value :=
  inst <- construct this id registration ;;
  _ <- populate registration inst ;;
  _ <- store fuel this id registration inst ;;
  ret inst.
End CreateInstance.

(** ** Container: [get], [createScopedContainer], [override] *)

Fixpoint get (fuel : nat) (this : nat) (id : Identifier) : M Value :=
  match fuel with
  | O => fun _ => None
  | S fuel' =>
      fun w =>
        match jsmap_get (registrations w) id with
        | None => Some (Thrown (RegistrationNotFound id), w)
        | Some registration =>
            if decide (lifetime registration = lt_transient)
            then createInstance (get fuel' this) fuel' this id registration w
            else
              match getScopedInstance fuel' w this id with
              | None => None
              | Some inst =>
                  if truthy inst then Some (Ok inst, w)
                  else createInstance (get fuel' this) fuel' this id registration w
              end
        end
  end.

(** The new node is the result; its cache is empty. *)
Definition createScopedContainer (this : nat) (w : World) : nat * World :=
  (length (nodes w),
   {| registrations := registrations w;
      nodes := nodes w ++ [ {| instances := ∅; parent := Some this |} ];
      objects := objects w |}).

Definition override_registration (inst : Value) : Registration :=
  {| constructor := None;
     lifetime := lt_scoped;
     dependencies := [];
     ctorDependencies := [];
     factory := None;
     instance := Some inst;
     collectionDependencies := None |}.

Definition override (this : nat) (id : Identifier) (inst : Value) (w : World) : World :=
  cache_set this id inst
    {| registrations := jsmap_set (registrations w) id (override_registration inst);
       nodes := nodes w;
       objects := objects w |}.

(** [n] successive calls of [get(id)] on one node. *)
Fixpoint get_many (fuel : nat) (this : nat) (id : Identifier) (n : nat) : M (list Value) :=
  match n with
  | O => ret []
  | S n' =>
      v <- get fuel this id ;;
      vs <- get_many fuel this id n' ;;
      ret (v :: vs)
  end.

(** ** What the builder produces

    [InjectKitRegistration.build] for the three ways of registering. *)

Definition useClass (ctor : Constructor) (deps : list Identifier) (lt : Lifetime)
    : Registration :=
  {| constructor := Some ctor; factory := None; instance := None;
     lifetime := lt; dependencies := deps; ctorDependencies := deps;
     collectionDependencies := None |}.

Definition useFactory (f : Factory) (lt : Lifetime) : Registration :=
  {| constructor := None; factory := Some f; instance := None;
     lifetime := lt; dependencies := []; ctorDependencies := [];
     collectionDependencies := None |}.

Definition useInstance (inst : Value) : Registration :=
  {| constructor := None; factory := None; instance := Some inst;
     lifetime := lt_singleton; dependencies := []; ctorDependencies := [];
     collectionDependencies := None |}.

Definition class (n : string) : Constructor := {| class_name := n; extends := Plain |}.

(** ** Specification vocabulary *)

(** Every dependency of the registration is a key of the map. *)
Definition complete (regs : RegMap) (r : Registration) : Prop :=
  Forall (fun d => jsmap_has regs d = true) (dependencies r).

#[global] Instance complete_dec regs r : Decision (complete regs r).
Proof. unfold complete. apply _. Defined.

(** The dependencies of the registration that are not keys of the map. *)
Definition missing_of (regs : RegMap) (r : Registration) : list Identifier :=
  filter (fun d => jsmap_has regs d = false) (dependencies r).

(** One of the three creation strategies is usable. *)
Definition has_strategy (r : Registration) : Prop :=
  is_Some (constructor r) \/ is_Some (factory r) \/
  exists v, instance r = Some v /\ truthy v = true.

(** [n] is [c] or one of its ancestors. *)
Inductive on_chain (w : World) : nat -> nat -> Prop :=
| on_chain_here c : on_chain w c c
| on_chain_up c p n :
    parent (node_at w c) = Some p -> on_chain w p n -> on_chain w c n.

(** No node from [c] up to the root holds a truthy instance under [id]. *)
Definition unresolved (w : World) (c : nat) (id : Identifier) : Prop :=
  forall n, on_chain w c n -> truthy (cache_get w n id) = false.

(** Parents are allocated before their children; node [0] is the only node
    without a parent. *)
Definition tree_wf (w : World) : Prop :=
  nodes w <> [] /\
  forall n nd, nodes w !! n = Some nd ->
    match parent nd with Some p => p < n | None => n = 0 end.

(** Every cached entry belongs to a registration that can be constructed,
    and only the root caches what is not scoped. *)
Definition cache_wf (w : World) : Prop :=
  forall n k, is_Some (instances (node_at w n) !! k) ->
    exists r, jsmap_get (registrations w) k = Some r /\ has_strategy r /\
              (parent (node_at w n) <> None -> lifetime r = lt_scoped).

Definition Inv (w : World) : Prop := tree_wf w /\ cache_wf w.

(** What a [get] on node [c] may change: it keeps the registrations and the
    parent links, only allocates objects, and a cache entry that differs
    afterwards was stored by [createInstance] according to its lifetime. *)
Definition Changes (c : nat) (w w' : World) : Prop :=
  registrations w' = registrations w /\
  parent <$> nodes w' = parent <$> nodes w /\
  length (objects w) <= length (objects w') /\
  forall n k,
    instances (node_at w' n) !! k = instances (node_at w n) !! k \/
    exists r v,
      jsmap_get (registrations w) k = Some r /\ has_strategy r /\
      instances (node_at w' n) !! k = Some v /\
      ((lifetime r = lt_singleton /\ parent (node_at w n) = None) \/
       (lifetime r = lt_scoped /\ n = c)).

(** A computation all of whose runs are related by [R]. *)
Definition respects {A} (R : World -> World -> Prop) (m : M A) : Prop :=
  forall w res w', m w = Some (res, w') -> R w w'.

(** The worlds over [regs] in which [this] is a node of a well-formed tree. *)
Definition settled (regs : RegMap) (this : nat) (w : World) : Prop :=
  registrations w = regs /\ tree_wf w /\ this < length (nodes w).

(** A computation that returns normally from every world in [P], into [P]. *)
Definition returns_in {A} (P : World -> Prop) (m : M A) : Prop :=
  forall w, P w -> exists a w', m w = Some (Ok a, w') /\ P w'.

Definition collection_ids (r : Registration) : list Identifier :=
  match collectionDependencies r with
  | Some (CollArray ids) => ids
  | Some (CollMap entries) => entries.*2
  | None => []
  end.

(** A factory body that only resolves registered identifiers of rank below
    [bound]. *)
Inductive fprog_ok (regs : RegMap) (rank : Identifier -> nat) (bound : nat)
    : FProg -> Prop :=
| fprog_ok_ret v : fprog_ok regs rank bound (FRet v)
| fprog_ok_get d k :
    is_Some (jsmap_get regs d) -> rank d < bound ->
    (forall v, fprog_ok regs rank bound (k v)) ->
    fprog_ok regs rank bound (FGet d k)
| fprog_ok_new ctor args k :
    (forall v, fprog_ok regs rank bound (k v)) ->
    fprog_ok regs rank bound (FNew ctor args k).

(** [rank] witnesses that the registrations can all be constructed: each has
    a strategy, and whatever its construction resolves is registered and of
    smaller rank (so the dependency graph, factories included, is acyclic). *)
Definition resolvable (regs : RegMap) (rank : Identifier -> nat) : Prop :=
  forall id r, jsmap_get regs id = Some r ->
    match constructor r, factory r, instance r with
    | Some _, _, _ => True
    | None, Some f, _ => forall c, fprog_ok regs rank (rank id) (f c)
    | None, None, Some v => truthy v = true
    | None, None, None => False
    end /\
    forall d, d ∈ ctorDependencies r ++ collection_ids r ->
      is_Some (jsmap_get regs d) /\ rank d < rank id.

(** The height of the dependency tree below a registration, explored the
    way [checkCircularDependencies] explores it. *)
Fixpoint height (regs : RegMap) (fuel : nat) (r : Registration) : nat :=
  match fuel with
  | O => 0
  | S fuel' =>
      S (max_list
           ((fun d =>
               match jsmap_get regs d with
               | Some rd =>
                   if (0 <? length (dependencies rd))%nat then height regs fuel' rd else 0
               | None => 0
               end) <$> dependencies r))
  end.

Definition rank_of (regs : RegMap) (fuel : nat) (id : Identifier) : nat :=
  match jsmap_get regs id with
  | Some r => if (0 <? length (dependencies r))%nat then height regs fuel r else 0
  | None => 0
  end.

(** A factory body that resolves nothing. *)
Definition sealed (p : FProg) : Prop := fprog_ok [] (fun _ => 0) 0 p.

(** What the builder guarantees for a registration it has finished: a
    strategy is set, and [dependencies] lists whatever the construction
    resolves. The validator cannot see into factories, so they are [sealed]. *)
Definition well_built (regs : RegMap) : Prop :=
  forall id r, (id, r) ∈ regs ->
    match constructor r, factory r, instance r with
    | Some _, _, _ => True
    | None, Some f, _ => forall c, sealed (f c)
    | None, None, Some v => truthy v = true
    | None, None, None => False
    end /\
    forall d, d ∈ ctorDependencies r ++ collection_ids r -> d ∈ dependencies r.

(** The worlds that the public surface can produce: [build], then any
    sequence of [get], [createScopedContainer] and [override] on existing
    nodes.  [override] takes an [Instance<T> = T & object]. *)
Inductive reachable : World -> Prop :=
| reach_build fuel regs w :
    build fuel regs = Some (Ok w) -> reachable w
| reach_get w fuel c id res w' :
    reachable w -> c < length (nodes w) ->
    get fuel c id w = Some (res, w') -> reachable w'
| reach_scope w c :
    reachable w -> c < length (nodes w) ->
    reachable (snd (createScopedContainer c w))
| reach_override w c id inst :
    reachable w -> c < length (nodes w) -> truthy inst = true ->
    reachable (override c id inst w).

(** The worlds that a container evolves into: any sequence of [get],
    [createScopedContainer] and [override] on nodes that exist. *)
Inductive evolves (w : World) : World -> Prop :=
| evolves_refl : evolves w w
| evolves_get w1 fuel c id res w2 :
    evolves w w1 -> c < length (nodes w1) ->
    get fuel c id w1 = Some (res, w2) -> evolves w w2
| evolves_scope w1 c :
    evolves w w1 -> c < length (nodes w1) ->
    evolves w (snd (createScopedContainer c w1))
| evolves_override w1 c id inst :
    evolves w w1 -> c < length (nodes w1) -> truthy inst = true ->
    evolves w (override c id inst w1).

(** ** Unrestricted statements, refuted below *)

(** Missing dependencies over the map as the caller registered it: a
    dependency that is not one of its keys makes [build] fail, naming the
    registration and the dependency. *)
Definition missing_dependency_reported (regs : RegMap) : Prop :=
  forall id r d,
    (id, r) ∈ regs -> d ∈ dependencies r -> jsmap_has regs d = false ->
    forall fuel, exists names,
      build fuel regs = Some (Thrown (MissingDependencies id names)) /\
      name d ∈ names.

(** The container's own registration, unqualified: when the caller has not
    registered [Container], [get(Container)] on the root returns the root,
    whatever the container has been used for since [build] returned it. *)
Definition root_resolves_itself (regs : RegMap) : Prop :=
  jsmap_has regs Container = false ->
  forall fuel w w' f v w'',
    build fuel regs = Some (Ok w) -> evolves w w' ->
    get f 0 Container w' = Some (Ok v, w'') -> v = VContainer 0.

(** Singleton identity for every producible value: once [s1] has resolved
    [id], the root caches the value and every node gets it back without
    anything being constructed. *)
Definition singleton_identity (w : World) (id : Identifier) : Prop :=
  forall s1 s2 fuel v w1,
    s1 < length (nodes w) -> s2 < length (nodes w) ->
    get fuel s1 id w = Some (Ok v, w1) ->
    instances (node_at w1 0) !! id = Some v /\
    forall fuel2, s2 + 2 <= fuel2 -> get fuel2 s2 id w1 = Some (Ok v, w1).

(** Scoped isolation for every pair of siblings. *)
Definition scoped_isolation (w : World) (id : Identifier) : Prop :=
  forall s1 s2 p fuel v1 w1 v2 w2,
    s1 <> s2 ->
    parent (node_at w s1) = Some p -> parent (node_at w s2) = Some p ->
    get fuel s1 id w = Some (Ok v1, w1) ->
    get fuel s2 id w1 = Some (Ok v2, w2) ->
    v1 <> v2.

(** Transient freshness with untouched caches. *)
Definition transient_fresh (w : World) (c : nat) (id : Identifier) : Prop :=
  forall fuel n vs w',
    get_many fuel c id n w = Some (Ok vs, w') ->
    NoDup vs /\ nodes w' = nodes w.

(** ** Scenarios *)

Definition world_of (r : option (Result World)) : World :=
  match r with
  | Some (Ok w) => w
  | _ => new_container []
  end.

(** [A(needs: B)], [B(needs: C)], [C(needs: B)], registered in this order. *)
Definition unrelated_cycle : RegMap :=
  [ ("A", useClass (class "A") ["B"] lt_transient);
    ("B", useClass (class "B") ["C"] lt_transient);
    ("C", useClass (class "C") ["B"] lt_transient) ].

(** The same registrations with [A] registered last. *)
Definition cycle_first : RegMap :=
  [ ("B", useClass (class "B") ["C"] lt_transient);
    ("C", useClass (class "C") ["B"] lt_transient);
    ("A", useClass (class "A") ["B"] lt_transient) ].

(** [DependentService(needs: SimpleService)] without [SimpleService]. *)
Definition dependent_only : RegMap :=
  [ ("DependentService", useClass (class "DependentService") ["SimpleService"] lt_singleton) ].

(** A service that has the container itself injected. *)
Definition needs_container : RegMap :=
  [ ("Service", useClass (class "Service") [Container] lt_singleton) ].

Definition dependent_and_simple : RegMap :=
  [ ("SimpleService", useClass (class "SimpleService") [] lt_singleton);
    ("DependentService", useClass (class "DependentService") ["SimpleService"] lt_singleton) ].

(** A singleton [DatabaseService]; two scopes under the root; the first one
    overrides [DatabaseService] with a mock. *)
Definition mockDb : Value := VHost 0.

Definition database_regs : RegMap :=
  [ ("DatabaseService", useClass (class "DatabaseService") [] lt_singleton) ].

Definition database_world : World :=
  world_of (build 2 [ ("DatabaseService", useClass (class "DatabaseService") [] lt_singleton) ]).

Definition two_scopes (w : World) : World :=
  snd (createScopedContainer 0 (snd (createScopedContainer 0 w))).

Definition override_world : World :=
  override 1 "DatabaseService" mockDb (two_scopes database_world).

(** A singleton whose factory builds a scratch object and returns [v]. *)
Definition returning (v : Value) : Factory :=
  fun _ => FNew (class "Scratch") [] (fun _ => FRet v).

Definition falsy_world (v : Value) : World :=
  world_of (build 2 [ ("Flag", useFactory (returning v) lt_singleton) ]).

(** The world after one [get], whatever it returned. *)
Definition after_get (fuel this : nat) (id : Identifier) (w : World) : World :=
  match get fuel this id w with
  | Some (_, w') => w'
  | None => w
  end.

(** The world after the root has resolved [Flag] once. *)
Definition flag_resolved (v : Value) : World := after_get 3 0 "Flag" (falsy_world v).

(** A scoped class that the root has already resolved, then two scopes. *)
Definition request_world : World :=
  world_of (build 2 [ ("RequestScopedService",
                       useClass (class "RequestScopedService") [] lt_scoped) ]).

Definition root_resolved_world : World :=
  two_scopes (after_get 3 0 "RequestScopedService" request_world).

(** A scoped registration built by a factory, and two scopes. *)
Definition scoped_factory_world (f : Factory) : World :=
  two_scopes (world_of (build 2 [ ("Settings", useFactory f lt_scoped) ])).

Definition sharedSettings : Value := VHost 5.

(** A factory that hands out one shared object. *)
Definition shared_factory : Factory := fun _ => FRet sharedSettings.

(** A transient whose factory hands out the singleton [DatabaseService]. *)
Definition proxy_world : World :=
  world_of (build 2
    [ ("DatabaseService", useClass (class "DatabaseService") [] lt_singleton);
      ("Proxy", useFactory (fun _ => FGet "DatabaseService" FRet) lt_transient) ]).

(** A transient class, and an identifier that was registered and never
    configured. *)
Definition transient_world : World :=
  world_of (build 2
    [ ("TransientService", useClass (class "TransientService") [] lt_transient);
      ("Broken", unconfigured) ]).

(** A caller-registered [Container]. *)
Definition customContainer : Value := VHost 7.

Definition custom_container_regs : RegMap :=
  [ (Container, useInstance customContainer);
    ("SimpleService", useClass (class "SimpleService") [] lt_singleton) ].

(** * Registry *)

(** ** The insertion-ordered map *)

Section JsMapFacts.
Context {K V : Type} `{EqDecision K}.
Implicit Types (m : list (K * V)) (k : K) (v : V).

Lemma jsmap_get_set_eq m k v : jsmap_get (jsmap_set m k v) k = Some v.
Proof.
  induction m as [|[k' v'] m IH]; simpl.
  - by rewrite decide_True.
  - destruct (decide (k' = k)) as [->|Hne]; simpl.
    + by rewrite decide_True.
    + by rewrite decide_False.
Qed.

Lemma jsmap_get_set_ne m k k' v :
  k <> k' -> jsmap_get (jsmap_set m k v) k' = jsmap_get m k'.
Proof.
  intros Hne. induction m as [|[k0 v0] m IH]; simpl.
  - by rewrite decide_False.
  - destruct (decide (k0 = k)) as [->|Hne0]; simpl.
    + by rewrite !decide_False.
    + by rewrite IH.
Qed.

Lemma jsmap_set_fresh m k v :
  jsmap_get m k = None -> jsmap_set m k v = m ++ [(k, v)].
Proof.
  induction m as [|[k' v'] m IH]; simpl; [done|].
  destruct (decide (k' = k)); [done|]. intros Hm. by rewrite IH.
Qed.

Lemma jsmap_has_true m k : jsmap_has m k = true <-> is_Some (jsmap_get m k).
Proof.
  unfold jsmap_has. destruct (jsmap_get m k); split; intros Hx;
    [by eauto|done|done|by destruct Hx].
Qed.

Lemma jsmap_has_false m k : jsmap_has m k = false <-> jsmap_get m k = None.
Proof. unfold jsmap_has. by destruct (jsmap_get m k). Qed.
End JsMapFacts.

(** ** [build] and the [Container] registration *)

Lemma with_container_get regs k :
  jsmap_get (with_container regs) k =
  match jsmap_get regs k with
  | Some r => Some r
  | None => if decide (Container = k) then Some container_registration else None
  end.
Proof.
  unfold with_container. destruct (jsmap_has regs Container) eqn:Hhas.
  - apply jsmap_has_true in Hhas as [r Hr].
    destruct (jsmap_get regs k) eqn:Hk; [done|].
    destruct (decide (Container = k)) as [<-|]; [congruence|done].
  - apply jsmap_has_false in Hhas.
    destruct (decide (Container = k)) as [<-|Hne].
    + by rewrite jsmap_get_set_eq, Hhas.
    + rewrite jsmap_get_set_ne by done. by destruct (jsmap_get regs k).
Qed.

Lemma with_container_entries regs :
  with_container regs = regs \/
  with_container regs = regs ++ [(Container, container_registration)].
Proof.
  unfold with_container. destruct (jsmap_has regs Container) eqn:Hhas; [by left|].
  right. apply jsmap_set_fresh. by apply jsmap_has_false.
Qed.

Lemma with_container_has regs d :
  jsmap_has (with_container regs) d = true <->
  jsmap_has regs d = true \/ d = Container.
Proof.
  rewrite !jsmap_has_true, with_container_get.
  destruct (jsmap_get regs d) as [r|]; [by intuition eauto|].
  destruct (decide (Container = d)) as [<-|Hne].
  - split; [by right|by eauto].
  - split; [by intros [? ?]|]. intros [[? ?]|]; done.
Qed.

(** ** [verifyRegistrations] *)

Lemma push_missing_spec regs deps acc :
  push_missing regs deps acc =
  acc ++ (name <$> filter (fun d => jsmap_has regs d = false) deps).
Proof.
  revert acc. induction deps as [|d deps IH]; intros acc; simpl.
  - by rewrite app_nil_r.
  - rewrite filter_cons. destruct (jsmap_has regs d) eqn:Hd.
    + rewrite decide_False by done. apply IH.
    + rewrite decide_True by done. rewrite IH. simpl. by rewrite <- app_assoc.
Qed.

Lemma missing_of_nil regs r : missing_of regs r = [] <-> complete regs r.
Proof.
  unfold missing_of, complete. induction (dependencies r) as [|d deps IH].
  - split; [constructor|done].
  - rewrite filter_cons, Forall_cons. destruct (jsmap_has regs d) eqn:Hd.
    + rewrite decide_False by done. rewrite IH. tauto.
    + rewrite decide_True by done. split; [done|]. intros [? _]. congruence.
Qed.

Lemma verify_entries_complete regs entries :
  Forall (fun e => complete regs e.2) entries -> verify_entries regs entries [] = Ok tt.
Proof.
  induction 1 as [|[id r] entries Hr _ IH]; simpl; [done|].
  rewrite push_missing_spec. simpl in Hr. apply missing_of_nil in Hr.
  unfold missing_of in Hr. rewrite Hr. simpl. apply IH.
Qed.

Lemma verify_entries_first regs pre id r post :
  Forall (fun e => complete regs e.2) pre ->
  ~ complete regs r ->
  verify_entries regs (pre ++ (id, r) :: post) [] =
  Thrown (MissingDependencies id (name <$> missing_of regs r)).
Proof.
  intros Hpre Hr. induction Hpre as [|[id' r'] pre Hr' _ IH]; simpl.
  - rewrite push_missing_spec. simpl. fold (missing_of regs r).
    destruct (missing_of regs r) eqn:Hm; [|done].
    by apply missing_of_nil in Hm.
  - rewrite push_missing_spec. simpl in Hr'. apply missing_of_nil in Hr'.
    unfold missing_of in Hr'. rewrite Hr'. simpl. apply IH.
Qed.

Lemma first_incomplete regs (entries : list (Identifier * Registration)) :
  ~ Forall (fun e => complete regs e.2) entries ->
  exists pre id r post,
    entries = pre ++ (id, r) :: post /\
    Forall (fun e => complete regs e.2) pre /\ ~ complete regs r.
Proof.
  induction entries as [|[id r] entries IH]; intros Hnot.
  - destruct Hnot. constructor.
  - destruct (decide (complete regs r)) as [Hr|Hr].
    + destruct IH as (pre & id' & r' & post & -> & Hpre & Hr').
      { intros Hall. apply Hnot. by constructor. }
      exists ((id, r) :: pre), id', r', post. split; [done|]. split; [|done].
      by constructor.
    + exists [], id, r, entries. split; [done|]. split; [constructor|done].
Qed.

(** C3 (amended). [build] validates the caller's registrations together with
    the [Container] registration that it adds when the caller gave none, so
    the keys are the caller's keys and [Container]. If every dependency of
    every registration is a key, the missing-dependency check passes;
    otherwise [build] fails, whatever else the map holds, with
    [MissingDependencies] naming the first registration (in registration
    order) that has an unregistered dependency, and listing every
    unregistered dependency of that registration, in order. *)
Theorem build_missing_dependencies (regs : RegMap) :
  let checked := with_container regs in
  (forall d, jsmap_has checked d = true <-> jsmap_has regs d = true \/ d = Container) /\
  (Forall (fun e => complete checked e.2) checked ->
   verifyRegistrations checked = Ok tt) /\
  (forall pre id r post fuel,
     checked = pre ++ (id, r) :: post ->
     Forall (fun e => complete checked e.2) pre ->
     ~ complete checked r ->
     missing_of checked r <> [] /\
     build fuel regs =
       Some (Thrown (MissingDependencies id (name <$> missing_of checked r)))) /\
  (~ Forall (fun e => complete checked e.2) checked ->
   exists pre id r post,
     checked = pre ++ (id, r) :: post /\
     Forall (fun e => complete checked e.2) pre /\ ~ complete checked r).
Proof.
  intros checked. split; [|split; [|split]].
  - apply with_container_has.
  - apply verify_entries_complete.
  - intros pre id r post fuel Heq Hpre Hr. split.
    + intros Hnil. by apply missing_of_nil in Hnil.
    + unfold build. fold checked. unfold verifyRegistrations.
      rewrite Heq at 2. by rewrite verify_entries_first.
  - apply first_incomplete.
Qed.

Lemma build_missing_dependencies_witness :
  verifyRegistrations (with_container dependent_and_simple) = Ok tt /\
  build 0 dependent_only =
    Some (Thrown (MissingDependencies "DependentService" ["SimpleService"])).
Proof.
  split.
  - destruct (build_missing_dependencies dependent_and_simple) as (_ & Hok & _ & _).
    apply Hok. unfold complete. repeat constructor.
  - destruct (build_missing_dependencies dependent_only) as (_ & _ & Hfail & _).
    apply (Hfail [] "DependentService"
             (useClass (class "DependentService") ["SimpleService"] lt_singleton)
             [(Container, container_registration)] 0).
    + reflexivity.
    + constructor.
    + unfold complete. simpl. intros Hall. by inversion Hall.
Defined.

(** C3 (as stated) fails: a registration that depends on [Container] is
    accepted although the caller registered nothing under [Container]. *)
Lemma missing_container_not_reported :
  jsmap_has needs_container Container = false /\
  (exists w, build 2 needs_container = Some (Ok w)) /\
  ~ missing_dependency_reported needs_container.
Proof.
  split; [reflexivity|]. split; [by eexists|].
  intros Hclaim.
  destruct (Hclaim "Service" (useClass (class "Service") [Container] lt_singleton)
              Container) with (fuel := 2) as (names & Hbuild & _);
    [by left|by left|reflexivity|].
  by vm_compute in Hbuild.
Qed.

Example missing_dependencies_message :
  message (MissingDependencies "DependentService" ["SimpleService"]) =
  "Missing dependencies for DependentService: SimpleService".
Proof. reflexivity. Qed.

(** ** [verifyNoCircularDependencies] *)

(** Started at [A], the walk through [B] and [C] never meets [A] again and
    never stops: every budget is exhausted. *)
Lemma unrelated_cycle_walk fuel :
  forall path,
    checkCircularDependencies fuel (with_container unrelated_cycle) "A"
      (useClass (class "B") ["C"] lt_transient) path = None /\
    checkCircularDependencies fuel (with_container unrelated_cycle) "A"
      (useClass (class "C") ["B"] lt_transient) path = None.
Proof.
  induction fuel as [|fuel IH]; intros path; [done|].
  split; simpl.
  - destruct (IH (path ++ [name "C"])) as [_ HC]. by rewrite HC.
  - destruct (IH (path ++ [name "B"])) as [HB _]. by rewrite HB.
Qed.

(** C1 (the code at the claim's input). With [A(needs: B)], [B(needs: C)],
    [C(needs: B)] registered in this order, [build] returns for no fuel
    budget: the cycle check started at [A] recurses without end, so no
    [CircularDependency] for the cycle of [B] and [C] is ever reported. *)
Theorem build_unrelated_cycle_diverges :
  forall fuel, build fuel unrelated_cycle = None.
Proof.
  intros fuel. unfold build.
  replace (verifyRegistrations (with_container unrelated_cycle)) with (Ok tt)
    by (by vm_compute).
  unfold verifyNoCircularDependencies.
  change (with_container unrelated_cycle) with
    (("A", useClass (class "A") ["B"] lt_transient) ::
     tail (with_container unrelated_cycle)) at 2.
  destruct fuel as [|fuel]; [done|]. simpl.
  destruct (unrelated_cycle_walk fuel ([] ++ [name "B"])) as [HB _].
  simpl in HB. by rewrite HB.
Qed.

(** The same graph is rejected when the walk happens to start inside the
    cycle: the cycle is reported only from one of its own nodes. *)
Lemma build_cycle_first :
  build 2 cycle_first = Some (Thrown (CircularDependency ["B"; "C"; "B"])).
Proof. by vm_compute. Qed.

(** C4. Two registrations that depend on each other make [build] fail with
    [CircularDependency] carrying exactly the path [A, B, A], starting and
    ending at the registration that was registered first. *)
Theorem build_direct_cycle (a b : Identifier) (ra rb : Registration) (fuel : nat) :
  a <> b ->
  dependencies ra = [b] ->
  dependencies rb = [a] ->
  2 <= fuel ->
  build fuel [(a, ra); (b, rb)] =
    Some (Thrown (CircularDependency [name a; name b; name a])).
Proof.
  intros Hab Hra Hrb Hfuel.
  set (regs := [(a, ra); (b, rb)]).
  assert (Hga : jsmap_get (with_container regs) a = Some ra).
  { rewrite with_container_get. simpl. by rewrite decide_True. }
  assert (Hgb : jsmap_get (with_container regs) b = Some rb).
  { rewrite with_container_get. simpl.
    rewrite decide_False by done. by rewrite decide_True. }
  assert (Hverify : verifyRegistrations (with_container regs) = Ok tt).
  { apply verify_entries_complete.
    assert (Hregs : Forall (fun e => complete (with_container regs) e.2) regs).
    { repeat constructor; unfold complete; simpl.
      - rewrite Hra. repeat constructor. apply jsmap_has_true. by rewrite Hgb.
      - rewrite Hrb. repeat constructor. apply jsmap_has_true. by rewrite Hga. }
    assert (Hall : forall entries,
      entries = regs \/ entries = regs ++ [(Container, container_registration)] ->
      Forall (fun e => complete (with_container regs) e.2) entries).
    { intros entries [->| ->]; [done|].
      apply Forall_app. split; [done|]. repeat constructor. }
    apply Hall, with_container_entries. }
  unfold build. fold regs. rewrite Hverify.
  assert (Hhead : exists rest, with_container regs = (a, ra) :: rest).
  { destruct (with_container_entries regs) as [Heq|Heq]; rewrite Heq; by eexists. }
  destruct Hhead as [rest Hhead].
  unfold verifyNoCircularDependencies.
  assert (Hstart : forall entries, entries = (a, ra) :: rest ->
    check_entries fuel (with_container regs) entries =
    Some (Thrown (CircularDependency [name a; name b; name a])));
    [|by rewrite (Hstart _ Hhead)].
  intros entries ->.
  destruct fuel as [|[|fuel]]; [lia|lia|].
  simpl. rewrite Hra. simpl.
  rewrite decide_False by done. rewrite Hgb, Hrb. simpl.
  by rewrite decide_True.
Qed.

Lemma build_direct_cycle_witness :
  build 2 [ ("ITestCircularService1", useClass (class "TestCircularService1")
                                        ["ITestCircularService2"] lt_transient);
            ("ITestCircularService2", useClass (class "TestCircularService2")
                                        ["ITestCircularService1"] lt_transient) ] =
  Some (Thrown (CircularDependency
    ["ITestCircularService1"; "ITestCircularService2"; "ITestCircularService1"])).
Proof.
  apply (build_direct_cycle "ITestCircularService1" "ITestCircularService2");
    [done|reflexivity|reflexivity|lia].
Defined.

Example direct_cycle_message :
  message (CircularDependency
    ["ITestCircularService1"; "ITestCircularService2"; "ITestCircularService1"]) =
  "Circular dependency found: ITestCircularService1 -> ITestCircularService2 -> ITestCircularService1".
Proof. reflexivity. Qed.

(** * Container *)

(** ** Reads after writes *)

Lemma node_at_cache_set c id v w n :
  node_at (cache_set c id v w) n =
  if decide (c = n /\ c < length (nodes w))
  then set_instance id v (node_at w n) else node_at w n.
Proof.
  unfold node_at, cache_set. simpl. rewrite list_lookup_alter.
  destruct (decide (c = n)) as [->|Hne].
  - destruct (nodes w !! n) as [nd|] eqn:Hn; simpl.
    + apply lookup_lt_Some in Hn. by rewrite decide_True.
    + apply lookup_ge_None in Hn. rewrite decide_False; [done|lia].
  - rewrite decide_False; [done|tauto].
Qed.

Lemma parent_cache_set c id v w n :
  parent (node_at (cache_set c id v w) n) = parent (node_at w n).
Proof. rewrite node_at_cache_set. by case_decide. Qed.

Lemma instances_cache_set c id v w n k :
  instances (node_at (cache_set c id v w) n) !! k =
  if decide (c = n /\ c < length (nodes w) /\ id = k) then Some v
  else instances (node_at w n) !! k.
Proof.
  rewrite node_at_cache_set. destruct (decide (c = n /\ c < length (nodes w))) as [[-> Hlt]|Hno].
  - simpl. destruct (decide (id = k)) as [->|Hne].
    + rewrite lookup_insert_eq. by rewrite decide_True.
    + rewrite lookup_insert_ne by done. rewrite decide_False; [done|tauto].
  - rewrite decide_False; [done|tauto].
Qed.

Lemma parents_cache_set c id v w :
  parent <$> nodes (cache_set c id v w) = parent <$> nodes w.
Proof.
  unfold cache_set. simpl.
  rewrite (list_fmap_alter parent (set_instance id v) (fun p => p) (nodes w) c).
  - by rewrite list_alter_id.
  - by apply Forall_forall.
Qed.

Lemma parent_node_at_ext w w' n :
  parent <$> nodes w' = parent <$> nodes w ->
  parent (node_at w' n) = parent (node_at w n).
Proof.
  intros Heq. unfold node_at.
  assert (Hn : parent <$> nodes w' !! n = parent <$> nodes w !! n).
  { by rewrite <- !list_lookup_fmap, Heq. }
  destruct (nodes w' !! n), (nodes w !! n); simpl in *; congruence.
Qed.

Lemma length_nodes_ext w w' :
  parent <$> nodes w' = parent <$> nodes w -> length (nodes w') = length (nodes w).
Proof. intros Heq. by rewrite <- (length_fmap parent), Heq, length_fmap. Qed.

Lemma cache_get_truthy w n id :
  truthy (cache_get w n id) = true ->
  instances (node_at w n) !! id = Some (cache_get w n id).
Proof. unfold cache_get. by destruct (instances (node_at w n) !! id). Qed.

(** ** The footprint relation is a preorder *)

#[global] Instance Changes_refl c : Reflexive (Changes c).
Proof. intros w. repeat split; [lia|]. intros n k. by left. Qed.

#[global] Instance Changes_trans c : Transitive (Changes c).
Proof.
  intros w1 w2 w3 (Hr1 & Hp1 & Ho1 & Hc1) (Hr2 & Hp2 & Ho2 & Hc2).
  split; [congruence|]. split; [congruence|]. split; [lia|].
  intros n k. destruct (Hc2 n k) as [Heq|(r & v & Hr & Hs & Hv & Hplace)].
  - rewrite Heq. apply Hc1.
  - right. exists r, v. rewrite Hr1 in Hr.
    by rewrite (parent_node_at_ext w1 w2 n Hp1) in Hplace.
Qed.

#[global] Instance Changes_preorder c : PreOrder (Changes c).
Proof. split; apply _. Qed.

(** ** Computations that stay within a preorder *)

Section Respects.
Context (R : World -> World -> Prop) `{!PreOrder R}.

Lemma respects_ret {A} (a : A) : respects R (ret a).
Proof. intros w res w' [= _ <-]. reflexivity. Qed.

Lemma respects_throw {A} (e : Error) : respects R (@throw A e).
Proof. intros w res w' [= _ <-]. reflexivity. Qed.

Lemma respects_bind {A B} (m : M A) (k : A -> M B) :
  respects R m -> (forall a, respects R (k a)) -> respects R (bind m k).
Proof.
  intros Hm Hk w res w'. unfold bind.
  destruct (m w) as [[[a|e] w1]|] eqn:Hmw; [|intros [= _ <-]; by eapply Hm|done].
  intros Hkw. transitivity w1; [by eapply Hm|by eapply Hk].
Qed.

Context (this_get : Identifier -> M Value).
Context (Hget : forall id, respects R (this_get id)).
Context (Hnew : forall ctor args, respects R (new_object ctor args)).
Context (Hupdate : forall r f, respects R (update_object r f)).

Lemma respects_resolve_all deps : respects R (resolve_all this_get deps).
Proof.
  induction deps as [|d deps IH]; simpl; [apply respects_ret|].
  apply respects_bind; [apply Hget|]. intros v.
  apply respects_bind; [apply IH|]. intros vs. apply respects_ret.
Qed.

Lemma respects_run_factory p : respects R (run_factory this_get p).
Proof.
  induction p as [v|id k IH|ctor args k IH]; simpl.
  - apply respects_ret.
  - apply respects_bind; [apply Hget|]. intros v. apply IH.
  - apply respects_bind; [apply Hnew|]. intros v. apply IH.
Qed.

Lemma respects_push_all r deps : respects R (push_all this_get r deps).
Proof.
  induction deps as [|d deps IH]; simpl; [apply respects_ret|].
  apply respects_bind; [apply Hget|]. intros v.
  apply respects_bind; [apply Hupdate|]. intros _. apply IH.
Qed.

Lemma respects_set_all r entries : respects R (set_all this_get r entries).
Proof.
  induction entries as [|[key d] entries IH]; simpl; [apply respects_ret|].
  apply respects_bind; [apply Hget|]. intros v.
  apply respects_bind; [apply Hupdate|]. intros _. apply IH.
Qed.

Lemma respects_construct this id r : respects R (construct this_get this id r).
Proof.
  unfold construct. destruct (constructor r) as [ctor|].
  { apply respects_bind; [apply respects_resolve_all|]. intros args. apply Hnew. }
  destruct (factory r) as [f|]; [apply respects_run_factory|].
  destruct (instance r) as [v|]; [|apply respects_throw].
  destruct (truthy v); [apply respects_ret|apply respects_throw].
Qed.

Lemma respects_populate r inst : respects R (populate this_get r inst).
Proof.
  intros w res w'. unfold populate.
  destruct (collectionDependencies r) as [[ids|entries]|].
  - destruct (instanceof w inst ArrayLike);
      [apply respects_push_all|apply respects_ret].
  - destruct (instanceof w inst MapLike);
      [apply respects_set_all|apply respects_ret].
  - apply respects_ret.
Qed.
End Respects.

(** ** The footprint of the primitives *)

Lemma new_object_changes c ctor args : respects (Changes c) (new_object ctor args).
Proof.
  intros w res w' [= _ <-]. repeat split; simpl; [|by left].
  rewrite length_app. lia.
Qed.

Lemma update_object_changes c r f : respects (Changes c) (update_object r f).
Proof.
  intros w res w' [= _ <-]. repeat split; simpl; [|by left].
  by rewrite length_alter.
Qed.

Lemma root_of_parentless fuel w c n :
  root_of fuel w c = Some n -> parent (node_at w n) = None.
Proof.
  revert c. induction fuel as [|fuel IH]; intros c; simpl; [done|].
  destruct (parent (node_at w c)) as [p|] eqn:Hp; [apply IH|].
  by intros [= <-].
Qed.

Lemma cache_set_changes c n id v w r :
  jsmap_get (registrations w) id = Some r -> has_strategy r ->
  (lifetime r = lt_singleton /\ parent (node_at w n) = None) \/
  (lifetime r = lt_scoped /\ n = c) ->
  Changes c w (cache_set n id v w).
Proof.
  intros Hr Hs Hplace. split; [done|]. split; [apply parents_cache_set|].
  split; [done|]. intros n' k. rewrite instances_cache_set.
  case_decide as Hd; [|by left]. destruct Hd as (-> & _ & ->).
  right. by exists r, v.
Qed.

Lemma store_changes fuel c id r inst :
  forall w res w',
    jsmap_get (registrations w) id = Some r -> has_strategy r ->
    store fuel c id r inst w = Some (res, w') -> Changes c w w'.
Proof.
  intros w res w' Hr Hs. unfold store.
  destruct (lifetime r) eqn:Hl.
  - destruct (root_of fuel w c) as [n|] eqn:Hroot; [|done]. intros [= _ <-].
    eapply cache_set_changes; [done..|]. left. split; [done|].
    by eapply root_of_parentless.
  - intros [= _ <-]. reflexivity.
  - intros [= _ <-]. eapply cache_set_changes; [done..|]. by right.
Qed.

Lemma construct_has_strategy g this id r w v w' :
  construct g this id r w = Some (Ok v, w') -> has_strategy r.
Proof.
  unfold construct, has_strategy.
  destruct (constructor r); [by eauto|].
  destruct (factory r); [by eauto|].
  destruct (instance r) as [v0|]; [|done].
  destruct (truthy v0) eqn:Hv0; [|done]. intros _. right; right. by eauto.
Qed.

(** The three stages of [createInstance]. *)
Lemma createInstance_inv g fuel this id r w res w' :
  createInstance g fuel this id r w = Some (res, w') ->
  (exists e, res = Thrown e /\ construct g this id r w = Some (Thrown e, w')) \/
  (exists inst w1,
     construct g this id r w = Some (Ok inst, w1) /\
     ((exists e, res = Thrown e /\ populate g r inst w1 = Some (Thrown e, w')) \/
      (exists w2,
         populate g r inst w1 = Some (Ok tt, w2) /\
         store fuel this id r inst w2 = Some (Ok tt, w') /\ res = Ok inst))).
Proof.
  unfold createInstance, bind.
  destruct (construct g this id r w) as [[[inst|e] w1]|]; [|by intros [= <- <-]; eauto|done].
  intros H. right. exists inst, w1. split; [done|].
  destruct (populate g r inst w1) as [[[[]|e] w2]|]; [|by injection H as <- <-; eauto|done].
  right. exists w2. split; [done|].
  destruct (store fuel this id r inst w2) as [[[[]|e] w3]|] eqn:Hst; [| |done].
  - unfold ret in H. by injection H as <- <-.
  - unfold store in Hst. by repeat case_match.
Qed.

Lemma createInstance_changes g fuel c id r :
  (forall id', respects (Changes c) (g id')) ->
  forall w res w',
    jsmap_get (registrations w) id = Some r ->
    createInstance g fuel c id r w = Some (res, w') -> Changes c w w'.
Proof.
  intros Hg w res w' Hr Hrun.
  assert (Hcon : respects (Changes c) (construct g c id r)).
  { apply respects_construct; [apply _|done|apply new_object_changes]. }
  assert (Hpop : forall inst, respects (Changes c) (populate g r inst)).
  { intros inst. apply respects_populate; [apply _|done|apply update_object_changes]. }
  apply createInstance_inv in Hrun
    as [(e & _ & H1)|(inst & w1 & H1 & [(e & _ & H2)|(w2 & H2 & H3 & _)])].
  - by eapply Hcon.
  - transitivity w1; [by eapply Hcon|by eapply Hpop].
  - assert (Changes c w w2) as Hw2.
    { transitivity w1; [by eapply Hcon|by eapply Hpop]. }
    transitivity w2; [done|]. eapply store_changes; [| |done].
    + destruct Hw2 as (-> & _). done.
    + by eapply construct_has_strategy.
Qed.

(** Every run of [get] on node [c] stays within [Changes c]. *)
Lemma get_changes fuel c id : respects (Changes c) (get fuel c id).
Proof.
  revert id. induction fuel as [|fuel IH]; intros id w res w'; simpl; [done|].
  destruct (jsmap_get (registrations w) id) as [r|] eqn:Hr;
    [|intros [= _ <-]; reflexivity].
  destruct (decide (lifetime r = lt_transient)).
  { by apply createInstance_changes. }
  destruct (getScopedInstance fuel w c id) as [inst|]; [|done].
  destruct (truthy inst); [intros [= _ <-]; reflexivity|].
  by apply createInstance_changes.
Qed.

(** ** The scope tree *)

Lemma node_at_lookup w n nd : nodes w !! n = Some nd -> node_at w n = nd.
Proof. unfold node_at. by intros ->. Qed.

Lemma node_at_invalid w n : length (nodes w) <= n -> node_at w n = empty_node.
Proof. intros Hn. unfold node_at. by rewrite (lookup_ge_None_2 _ _ Hn). Qed.

Lemma parent_Some_lt w c p :
  tree_wf w -> parent (node_at w c) = Some p -> p < c /\ c < length (nodes w).
Proof.
  intros [_ Hwf] Hp. unfold node_at in Hp.
  destruct (nodes w !! c) as [nd|] eqn:Hc; [|done]. simpl in Hp.
  specialize (Hwf c nd Hc). rewrite Hp in Hwf.
  split; [done|]. by eapply lookup_lt_Some.
Qed.

Lemma parent_None_root w c :
  tree_wf w -> c < length (nodes w) -> parent (node_at w c) = None -> c = 0.
Proof.
  intros [_ Hwf] Hc Hp. apply lookup_lt_is_Some in Hc as [nd Hnd].
  rewrite (node_at_lookup _ _ _ Hnd) in Hp.
  specialize (Hwf c nd Hnd). by rewrite Hp in Hwf.
Qed.

Lemma root_parentless w : tree_wf w -> parent (node_at w 0) = None.
Proof.
  intros [Hne Hwf]. unfold node_at.
  destruct (nodes w) as [|nd nds] eqn:Hnodes; [done|]. simpl.
  specialize (Hwf 0 nd eq_refl). destruct (parent nd); [lia|done].
Qed.

Lemma on_chain_le w c n : tree_wf w -> on_chain w c n -> n <= c.
Proof.
  intros Hwf. induction 1 as [c|c p n Hp _ IH]; [lia|].
  apply (parent_Some_lt _ _ _ Hwf) in Hp. lia.
Qed.

Lemma root_of_root fuel w c :
  tree_wf w -> c < fuel -> c < length (nodes w) -> root_of fuel w c = Some 0.
Proof.
  intros Hwf. revert c. induction fuel as [|fuel IH]; intros c Hfuel Hc; [lia|].
  simpl. destruct (parent (node_at w c)) as [p|] eqn:Hp.
  - apply (parent_Some_lt _ _ _ Hwf) in Hp. apply IH; lia.
  - by rewrite (parent_None_root w c).
Qed.

(** ** The cache chain *)

Lemma getScopedInstance_result fuel w c id v :
  getScopedInstance fuel w c id = Some v ->
  exists n, on_chain w c n /\ v = cache_get w n id.
Proof.
  revert c. induction fuel as [|fuel IH]; intros c; simpl; [done|].
  destruct (parent (node_at w c)) as [p|] eqn:Hp.
  - destruct (truthy (cache_get w c id)); simpl.
    + intros [= <-]. exists c. split; [constructor|done].
    + intros Hrec. destruct (IH p Hrec) as (n & Hn & ->).
      exists n. split; [by econstructor|done].
  - intros [= <-]. exists c. split; [constructor|done].
Qed.

Lemma getScopedInstance_unresolved fuel w c id :
  tree_wf w -> c < fuel -> unresolved w c id ->
  exists v, getScopedInstance fuel w c id = Some v /\ truthy v = false.
Proof.
  intros Hwf. revert c. induction fuel as [|fuel IH]; intros c Hfuel Hun; [lia|].
  simpl. assert (Hc : truthy (cache_get w c id) = false) by apply Hun, on_chain_here.
  destruct (parent (node_at w c)) as [p|] eqn:Hp; [|by eauto].
  rewrite Hc. simpl. apply IH.
  - apply (parent_Some_lt _ _ _ Hwf) in Hp. lia.
  - intros n Hn. apply Hun. by econstructor.
Qed.

Lemma getScopedInstance_here fuel w c id :
  truthy (cache_get w c id) = true ->
  getScopedInstance (S fuel) w c id = Some (cache_get w c id).
Proof. intros Hc. simpl. rewrite Hc. by destruct (parent (node_at w c)). Qed.

Lemma getScopedInstance_parent fuel w c p id :
  parent (node_at w c) = Some p -> truthy (cache_get w c id) = false ->
  getScopedInstance (S fuel) w c id = getScopedInstance fuel w p id.
Proof. intros Hp Hc. simpl. by rewrite Hp, Hc. Qed.

(** When only the root caches [id], every walk ends at the root's entry. *)
Lemma getScopedInstance_root fuel w c id :
  tree_wf w -> c < fuel -> c < length (nodes w) ->
  (forall n, n <> 0 -> instances (node_at w n) !! id = None) ->
  getScopedInstance fuel w c id = Some (cache_get w 0 id).
Proof.
  intros Hwf Hfuel Hc Hnone. revert c Hfuel Hc.
  induction fuel as [|fuel IH]; intros c Hfuel Hc; [lia|]. simpl.
  destruct (parent (node_at w c)) as [p|] eqn:Hp.
  - apply (parent_Some_lt _ _ _ Hwf) in Hp as [Hpc _].
    unfold cache_get at 1. rewrite Hnone by lia. simpl. apply IH; lia.
  - by rewrite (parent_None_root w c).
Qed.

Lemma on_chain_ext w w' c n :
  parent <$> nodes w' = parent <$> nodes w -> on_chain w c n -> on_chain w' c n.
Proof.
  intros Hp. induction 1 as [c|c p n Hc _ IH]; [constructor|].
  econstructor; [|done]. by rewrite (parent_node_at_ext w w' c Hp).
Qed.

Lemma walk_falsy_unresolved fuel w c id v :
  getScopedInstance fuel w c id = Some v -> truthy v = false -> unresolved w c id.
Proof.
  revert c. induction fuel as [|fuel IH]; intros c; simpl; [done|].
  destruct (parent (node_at w c)) as [p|] eqn:Hp.
  - destruct (truthy (cache_get w c id)) eqn:Hc; simpl.
    + intros [= <-] Hv. congruence.
    + intros Hwalk Hv n Hn. inversion Hn as [|? p' ? Hp' Hup]; subst; [done|].
      rewrite Hp in Hp'. injection Hp' as <-. by eapply IH.
  - intros [= <-] Hv n Hn. inversion Hn as [|? p' ? Hp' Hup]; subst; [done|].
    congruence.
Qed.

Lemma walk_unresolved fuel w c id inst :
  unresolved w c id -> getScopedInstance fuel w c id = Some inst -> truthy inst = false.
Proof. intros Hun Hwalk. apply getScopedInstance_result in Hwalk as (n & Hn & ->). by apply Hun. Qed.

Lemma unresolved_ext w w' c id :
  parent <$> nodes w' = parent <$> nodes w ->
  (forall n, on_chain w c n ->
     instances (node_at w' n) !! id = instances (node_at w n) !! id) ->
  unresolved w c id -> unresolved w' c id.
Proof.
  intros Hp Hsame Hun n Hn.
  assert (Hn' : on_chain w c n) by by eapply on_chain_ext.
  unfold cache_get. rewrite Hsame by done. by apply Hun.
Qed.

Lemma getScopedInstance_agree fuel w w' c id :
  (forall n, on_chain w c n ->
     parent (node_at w' n) = parent (node_at w n) /\
     cache_get w' n id = cache_get w n id) ->
  getScopedInstance fuel w' c id = getScopedInstance fuel w c id.
Proof.
  revert c. induction fuel as [|fuel IH]; intros c Hsame; [done|].
  simpl. destruct (Hsame c) as [-> ->]; [constructor|].
  destruct (parent (node_at w c)) as [p|] eqn:Hpc; [|done].
  destruct (truthy (cache_get w c id)); [done|]. simpl.
  apply IH. intros n Hn. apply Hsame. by econstructor.
Qed.

Lemma getScopedInstance_enough fuel fuel' w c id v :
  tree_wf w -> c < fuel' ->
  getScopedInstance fuel w c id = Some v ->
  getScopedInstance fuel' w c id = Some v.
Proof.
  intros Hwf. revert fuel' c. induction fuel as [|fuel IH]; intros fuel' c Hc; [done|].
  destruct fuel' as [|fuel']; [lia|]. simpl.
  destruct (parent (node_at w c)) as [p|] eqn:Hp; [|done].
  destruct (truthy (cache_get w c id)); [done|]. simpl.
  apply IH. apply (parent_Some_lt _ _ _ Hwf) in Hp. lia.
Qed.

(** ** The invariant of reachable worlds *)

Lemma tree_wf_ext w w' :
  parent <$> nodes w' = parent <$> nodes w -> tree_wf w -> tree_wf w'.
Proof.
  intros Hp [Hne Hwf]. split.
  - intros Hnil. apply Hne. apply length_nodes_ext in Hp.
    rewrite Hnil in Hp. by destruct (nodes w).
  - intros n nd' Hn.
    assert (Hl : (parent <$> nodes w) !! n = Some (parent nd')).
    { by rewrite <- Hp, list_lookup_fmap, Hn. }
    apply list_lookup_fmap_Some in Hl as (nd & -> & Hnd).
    by apply Hwf.
Qed.

Lemma Inv_changes c w w' : Inv w -> Changes c w w' -> Inv w'.
Proof.
  intros [Hwf Hcache] (Hr & Hp & _ & Hc). split; [by eapply tree_wf_ext|].
  intros n k Hsome. rewrite Hr, (parent_node_at_ext w w' n Hp).
  destruct (Hc n k) as [Heq|(r & v & Hrk & Hs & _ & Hplace)].
  - apply Hcache. by rewrite <- Heq.
  - exists r. split; [done|]. split; [done|].
    destruct Hplace as [[_ Hroot]|[Hl _]]; [by rewrite Hroot|done].
Qed.

Lemma Inv_new_container regs : Inv (new_container regs).
Proof.
  split.
  - split; [done|]. intros [|n] nd; simpl; [by intros [= <-]|done].
  - intros [|n] k; unfold node_at; simpl.
    + rewrite lookup_empty. by intros [? ?].
    + rewrite lookup_empty. by intros [? ?].
Qed.

Lemma build_Ok fuel regs w :
  build fuel regs = Some (Ok w) -> w = new_container (with_container regs).
Proof.
  unfold build. destruct (verifyRegistrations _); [|done].
  destruct (verifyNoCircularDependencies _ _) as [[[]|]|]; [|done..].
  by intros [= <-].
Qed.

Lemma node_at_scope c w n :
  node_at (snd (createScopedContainer c w)) n =
  if decide (n = length (nodes w)) then {| instances := ∅; parent := Some c |}
  else node_at w n.
Proof.
  unfold node_at, createScopedContainer. simpl.
  destruct (lt_eq_lt_dec n (length (nodes w))) as [[Hlt|Heq]|Hgt].
  - rewrite lookup_app_l by done. rewrite decide_False; [done|lia].
  - rewrite decide_True by done. subst n.
    by rewrite (list_lookup_middle (nodes w) []).
  - rewrite decide_False by lia.
    rewrite (lookup_ge_None_2 (nodes w) n) by lia.
    rewrite lookup_ge_None_2; [done|]. rewrite length_app. simpl. lia.
Qed.

Lemma Inv_scope c w :
  Inv w -> c < length (nodes w) -> Inv (snd (createScopedContainer c w)).
Proof.
  intros [[Hne Hwf] Hcache] Hc. split.
  - split; [simpl; by destruct (nodes w)|].
    intros n nd Hn. simpl in Hn. apply lookup_app_Some in Hn as [Hn|[Hlen Hn]].
    + by apply Hwf.
    + destruct (n - length (nodes w)) as [|m] eqn:Hm; [|done].
      simpl in Hn. injection Hn as <-. simpl. lia.
  - intros n k. rewrite node_at_scope. case_decide.
    + simpl. rewrite lookup_empty. by intros [? ?].
    + apply Hcache.
Qed.

Lemma Inv_override c id inst w :
  Inv w -> truthy inst = true -> Inv (override c id inst w).
Proof.
  intros [Hwf Hcache] Hinst. unfold override.
  set (w1 := {| registrations := jsmap_set (registrations w) id (override_registration inst);
                nodes := nodes w; objects := objects w |}).
  assert (Hov : has_strategy (override_registration inst)).
  { right; right. by exists inst. }
  split.
  - eapply tree_wf_ext; [|exact Hwf]. apply (parents_cache_set c id inst w1).
  - intros n k. rewrite instances_cache_set, parent_cache_set. simpl.
    destruct (decide (id = k)) as [<-|Hne].
    + intros _. exists (override_registration inst).
      by rewrite jsmap_get_set_eq.
    + rewrite decide_False by tauto. rewrite jsmap_get_set_ne by done.
      apply Hcache.
Qed.

Theorem reachable_Inv w : reachable w -> Inv w.
Proof.
  induction 1 as [fuel regs w Hb|w fuel c id res w' _ IH _ Hget|w c _ IH Hc
                 |w c id inst _ IH _ Hinst].
  - apply build_Ok in Hb as ->. apply Inv_new_container.
  - eapply Inv_changes; [exact IH|]. by eapply get_changes.
  - by apply Inv_scope.
  - by apply Inv_override.
Qed.

(** ** The two ways through [get] *)

Lemma get_unfold fuel this id w :
  get (S fuel) this id w =
  match jsmap_get (registrations w) id with
  | None => Some (Thrown (RegistrationNotFound id), w)
  | Some registration =>
      if decide (lifetime registration = lt_transient)
      then createInstance (get fuel this) fuel this id registration w
      else
        match getScopedInstance fuel w this id with
        | None => None
        | Some inst =>
            if truthy inst then Some (Ok inst, w)
            else createInstance (get fuel this) fuel this id registration w
        end
  end.
Proof. reflexivity. Qed.

(** A chain without a truthy entry is a miss: [get] constructs. *)
Lemma get_miss fuel this id r w :
  tree_wf w -> jsmap_get (registrations w) id = Some r ->
  this < fuel -> unresolved w this id ->
  get (S fuel) this id w = createInstance (get fuel this) fuel this id r w.
Proof.
  intros Hwf Hr Hfuel Hun. rewrite get_unfold, Hr.
  destruct (decide (lifetime r = lt_transient)); [done|].
  destruct (getScopedInstance_unresolved fuel w this id Hwf Hfuel Hun) as (v & -> & Hv).
  by rewrite Hv.
Qed.

(** A truthy entry on the chain is a hit: nothing is constructed. *)
Lemma get_hit fuel this id r w v :
  jsmap_get (registrations w) id = Some r -> lifetime r <> lt_transient ->
  getScopedInstance fuel w this id = Some v -> truthy v = true ->
  get (S fuel) this id w = Some (Ok v, w).
Proof.
  intros Hr Hl Hv Ht. rewrite get_unfold, Hr.
  rewrite decide_False by done. by rewrite Hv, Ht.
Qed.

Lemma get_inv fuel this id w res w' :
  get fuel this id w = Some (res, w') ->
  exists fuel', fuel = S fuel' /\
    match jsmap_get (registrations w) id with
    | None => res = Thrown (RegistrationNotFound id) /\ w' = w
    | Some r =>
        (lifetime r <> lt_transient /\ w' = w /\
         exists inst, res = Ok inst /\ truthy inst = true /\
                      getScopedInstance fuel' w this id = Some inst) \/
        ((lifetime r = lt_transient \/
          exists inst, truthy inst = false /\
                       getScopedInstance fuel' w this id = Some inst) /\
         createInstance (get fuel' this) fuel' this id r w = Some (res, w'))
    end.
Proof.
  destruct fuel as [|fuel']; [done|]. rewrite get_unfold. intros Hget.
  exists fuel'. split; [done|].
  destruct (jsmap_get (registrations w) id) as [r|]; [|by injection Hget as <- <-].
  destruct (decide (lifetime r = lt_transient)) as [Hl|Hl]; [by eauto|].
  destruct (getScopedInstance fuel' w this id) as [inst|] eqn:Hwalk; [|done].
  destruct (truthy inst) eqn:Ht.
  - injection Hget as <- <-. left. by eauto 10.
  - right. by eauto 10.
Qed.

(** ** Where instances are stored, and which objects are fresh *)

Lemma singleton_only_root w id r :
  Inv w -> jsmap_get (registrations w) id = Some r -> lifetime r = lt_singleton ->
  forall n, n <> 0 -> instances (node_at w n) !! id = None.
Proof.
  intros [Hwf Hcache] Hr Hl n Hn.
  destruct (instances (node_at w n) !! id) as [v|] eqn:Hv; [|done].
  destruct (Hcache n id) as (r' & Hr' & _ & Hscoped); [by eauto|].
  rewrite Hr in Hr'. injection Hr' as <-.
  destruct (decide (n < length (nodes w))) as [Hlt|Hge].
  - destruct (parent (node_at w n)) as [p|] eqn:Hp.
    + rewrite Hscoped in Hl; done.
    + by apply (parent_None_root w n Hwf Hlt) in Hp.
  - rewrite node_at_invalid in Hv by lia. simpl in Hv. by rewrite lookup_empty in Hv.
Qed.

Lemma root_of_is_root fuel w c n :
  tree_wf w -> c < length (nodes w) -> root_of fuel w c = Some n -> n = 0.
Proof.
  intros Hwf. revert c. induction fuel as [|fuel IH]; intros c Hc; simpl; [done|].
  destruct (parent (node_at w c)) as [p|] eqn:Hp.
  - apply IH. apply (parent_Some_lt _ _ _ Hwf) in Hp. lia.
  - intros [= <-]. by apply (parent_None_root w).
Qed.

Lemma store_singleton fuel c id r inst w w' :
  tree_wf w -> c < length (nodes w) -> lifetime r = lt_singleton ->
  store fuel c id r inst w = Some (Ok tt, w') ->
  w' = cache_set 0 id inst w.
Proof.
  intros Hwf Hc Hl. unfold store. rewrite Hl.
  destruct (root_of fuel w c) as [n|] eqn:Hroot; [|done].
  apply root_of_is_root in Hroot as ->; [|done..]. by intros [= <-].
Qed.

Lemma cache_set_lookup c id v w :
  c < length (nodes w) -> instances (node_at (cache_set c id v w) c) !! id = Some v.
Proof. intros Hc. rewrite instances_cache_set. by rewrite decide_True. Qed.

Lemma tree_wf_nonempty w : tree_wf w -> 0 < length (nodes w).
Proof. intros [Hne _]. destruct (nodes w); [done|simpl; lia]. Qed.

(** A successful construction leaves the instance where its lifetime says. *)
Lemma createInstance_stored g fuel c id r w v w' :
  (forall id', respects (Changes c) (g id')) ->
  tree_wf w -> c < length (nodes w) ->
  createInstance g fuel c id r w = Some (Ok v, w') ->
  match lifetime r with
  | lt_singleton => instances (node_at w' 0) !! id = Some v
  | lt_scoped => instances (node_at w' c) !! id = Some v
  | lt_transient => True
  end.
Proof.
  intros Hg Hwf Hc Hrun.
  apply createInstance_inv in Hrun
    as [(e & ? & _)|(inst & w1 & H1 & [(e & ? & _)|(w2 & H2 & H3 & Hres)])]; [done..|].
  injection Hres as <-.
  assert (Hw2 : Changes c w w2).
  { transitivity w1.
    - eapply respects_construct in H1; [done|apply _|done|apply new_object_changes].
    - eapply respects_populate in H2; [done|apply _|done|apply update_object_changes]. }
  destruct Hw2 as (_ & Hp & _).
  assert (Hwf2 : tree_wf w2) by by eapply tree_wf_ext.
  assert (Hc2 : c < length (nodes w2)) by by rewrite (length_nodes_ext w w2).
  destruct (lifetime r) eqn:Hl; [| done |].
  - apply store_singleton in H3 as ->; [|done..].
    apply cache_set_lookup. by apply tree_wf_nonempty.
  - unfold store in H3. rewrite Hl in H3. injection H3 as <-.
    by apply cache_set_lookup.
Qed.

Lemma construct_fresh g c id r ctor w v w' :
  (forall id', respects (Changes c) (g id')) ->
  constructor r = Some ctor ->
  construct g c id r w = Some (Ok v, w') ->
  exists n, v = VObj n /\ length (objects w) <= n < length (objects w').
Proof.
  intros Hg Hctor. unfold construct, bind. rewrite Hctor.
  destruct (resolve_all g (ctorDependencies r) w) as [[[args|e] w1]|] eqn:Hargs; [|done..].
  pose proof (respects_resolve_all (Changes c) g Hg _ _ _ _ Hargs) as (_ & _ & Hlen & _).
  intros [= <- <-]. eexists. split; [done|]. simpl. rewrite length_app. simpl. lia.
Qed.

Lemma createInstance_fresh g fuel c id r ctor w v w' :
  (forall id', respects (Changes c) (g id')) ->
  jsmap_get (registrations w) id = Some r ->
  constructor r = Some ctor ->
  createInstance g fuel c id r w = Some (Ok v, w') ->
  exists n, v = VObj n /\ length (objects w) <= n < length (objects w').
Proof.
  intros Hg Hr Hctor Hrun.
  apply createInstance_inv in Hrun
    as [(e & ? & _)|(inst & w1 & H1 & [(e & ? & _)|(w2 & H2 & H3 & Hres)])]; [done..|].
  injection Hres as <-.
  pose proof H1 as Hch1.
  apply respects_construct with (R := Changes c) in Hch1;
    [|apply _|done|apply new_object_changes].
  destruct (construct_fresh g c id r ctor w v w1 Hg Hctor H1) as (n & -> & Hn).
  apply respects_populate with (R := Changes c) in H2;
    [|apply _|done|apply update_object_changes].
  apply store_changes in H3.
  - destruct H2 as (_ & _ & Hl2 & _), H3 as (_ & _ & Hl3 & _).
    exists n. split; [done|]. lia.
  - destruct Hch1 as (Hr1 & _), H2 as (Hr2 & _). by rewrite Hr2, Hr1.
  - by eapply construct_has_strategy.
Qed.

(** A [get] that cannot hit the cache returns a freshly allocated object
    when the registration is constructor-based. *)
Lemma get_fresh fuel c id r ctor w v w' :
  jsmap_get (registrations w) id = Some r ->
  constructor r = Some ctor ->
  lifetime r = lt_transient \/ unresolved w c id ->
  get fuel c id w = Some (Ok v, w') ->
  exists n, v = VObj n /\ length (objects w) <= n < length (objects w').
Proof.
  intros Hr Hctor Hmiss Hget.
  apply get_inv in Hget as (fuel' & -> & Hcases). rewrite Hr in Hcases.
  destruct Hcases as [(Hl & _ & inst & _ & Ht & Hwalk)|[_ Hrun]].
  - destruct Hmiss as [?|Hun]; [done|].
    rewrite (walk_unresolved _ _ _ _ _ Hun Hwalk) in Ht. done.
  - eapply createInstance_fresh; [|done..]. intros id'. apply get_changes.
Qed.

Lemma changes_entry_same c w w' n id r :
  Changes c w w' -> jsmap_get (registrations w) id = Some r ->
  lifetime r = lt_transient \/
  (lifetime r = lt_scoped /\ n <> c) \/
  (lifetime r = lt_singleton /\ parent (node_at w n) <> None) ->
  instances (node_at w' n) !! id = instances (node_at w n) !! id.
Proof.
  intros (_ & _ & _ & Hc) Hr Hcond.
  destruct (Hc n id) as [Heq|(r' & v & Hr' & _ & _ & Hplace)]; [done|].
  rewrite Hr in Hr'. injection Hr' as <-.
  destruct Hcond as [Hl|[[Hl Hn]|[Hl Hp]]], Hplace as [[Hl' Hp']|[Hl' Hn']];
    congruence.
Qed.

(** ** Enough fuel gives a result *)

Lemma getScopedInstance_total fuel w c id :
  tree_wf w -> c < fuel -> is_Some (getScopedInstance fuel w c id).
Proof.
  intros Hwf. revert c. induction fuel as [|fuel IH]; intros c Hc; [lia|]. simpl.
  destruct (parent (node_at w c)) as [p|] eqn:Hp; [|by eauto].
  destruct (truthy (cache_get w c id)); simpl; [by eauto|].
  apply IH. apply (parent_Some_lt _ _ _ Hwf) in Hp. lia.
Qed.

Section Returns.
Context (P : World -> Prop).

Lemma returns_ret {A} (a : A) : returns_in P (ret a).
Proof. intros w Hw. by exists a, w. Qed.

Lemma returns_bind {A B} (m : M A) (k : A -> M B) :
  returns_in P m -> (forall a, returns_in P (k a)) -> returns_in P (bind m k).
Proof.
  intros Hm Hk w Hw. destruct (Hm w Hw) as (a & w1 & Hrun & Hw1).
  unfold bind. rewrite Hrun. by apply Hk.
Qed.
End Returns.

Section Totality.
Context (regs : RegMap) (rank : Identifier -> nat) (this : nat).
Context (Hres : resolvable regs rank).

Lemma settled_changes w w' : settled regs this w -> Changes this w w' -> settled regs this w'.
Proof.
  intros (Hr & Hwf & Hthis) (Hr' & Hp & _). split; [congruence|].
  split; [by eapply tree_wf_ext|]. by rewrite (length_nodes_ext w w').
Qed.

Lemma settled_new_object ctor args : returns_in (settled regs this) (new_object ctor args).
Proof.
  intros w Hw. eexists _, _. split; [reflexivity|].
  eapply settled_changes; [done|]. by eapply new_object_changes.
Qed.

Lemma settled_update_object r f : returns_in (settled regs this) (update_object r f).
Proof.
  intros w Hw. eexists _, _. split; [reflexivity|].
  eapply settled_changes; [done|]. by eapply update_object_changes.
Qed.

Context (this_get : Identifier -> M Value) (bound : nat).
Context (Hget : forall d, is_Some (jsmap_get regs d) -> rank d < bound ->
                          returns_in (settled regs this) (this_get d)).

Lemma settled_resolve_all deps :
  (forall d, d ∈ deps -> is_Some (jsmap_get regs d) /\ rank d < bound) ->
  returns_in (settled regs this) (resolve_all this_get deps).
Proof.
  induction deps as [|d deps IH]; intros Hdeps; simpl; [apply returns_ret|].
  apply returns_bind.
  { apply Hget; apply Hdeps; by left. }
  intros v. apply returns_bind; [|intros vs; apply returns_ret].
  apply IH. intros d' Hd'. apply Hdeps. by right.
Qed.

Lemma settled_run_factory p :
  fprog_ok regs rank bound p -> returns_in (settled regs this) (run_factory this_get p).
Proof.
  induction 1 as [v|d k Hd Hrank _ IH|ctor args k _ IH]; simpl.
  - apply returns_ret.
  - apply returns_bind; [by apply Hget|done].
  - apply returns_bind; [apply settled_new_object|done].
Qed.

Lemma settled_push_all r deps :
  (forall d, d ∈ deps -> is_Some (jsmap_get regs d) /\ rank d < bound) ->
  returns_in (settled regs this) (push_all this_get r deps).
Proof.
  induction deps as [|d deps IH]; intros Hdeps; simpl; [apply returns_ret|].
  apply returns_bind.
  { apply Hget; apply Hdeps; by left. }
  intros v. apply returns_bind; [apply settled_update_object|]. intros _.
  apply IH. intros d' Hd'. apply Hdeps. by right.
Qed.

Lemma settled_set_all r (entries : list (Value * Identifier)) :
  (forall d, d ∈ entries.*2 -> is_Some (jsmap_get regs d) /\ rank d < bound) ->
  returns_in (settled regs this) (set_all this_get r entries).
Proof.
  induction entries as [|[key d] entries IH]; intros Hdeps; simpl; [apply returns_ret|].
  apply returns_bind.
  { apply Hget; apply Hdeps; by left. }
  intros v. apply returns_bind; [apply settled_update_object|]. intros _.
  apply IH. intros d' Hd'. apply Hdeps. by right.
Qed.

Lemma settled_createInstance fuel id r :
  jsmap_get regs id = Some r -> rank id <= bound -> this < fuel ->
  (forall d, respects (Changes this) (this_get d)) ->
  returns_in (settled regs this) (createInstance this_get fuel this id r).
Proof.
  intros Hr Hbound Hfuel Hch. destruct (Hres id r Hr) as [Hstrategy Hdeps].
  assert (Hdeps' : forall d, d ∈ ctorDependencies r ++ collection_ids r ->
                     is_Some (jsmap_get regs d) /\ rank d < bound).
  { intros d Hd. destruct (Hdeps d Hd). split; [done|lia]. }
  unfold createInstance.
  apply returns_bind; [|intros inst; apply returns_bind;
                        [|intros _; apply returns_bind; [|intros _; apply returns_ret]]].
  - unfold construct.
    destruct (constructor r) as [ctor|].
    { apply returns_bind; [|intros args; apply settled_new_object].
      apply settled_resolve_all. intros d Hd. apply Hdeps'. apply elem_of_app. by left. }
    destruct (factory r) as [f|].
    { apply settled_run_factory.
      assert (Hf : forall bound', rank id <= bound' -> forall p,
                fprog_ok regs rank (rank id) p -> fprog_ok regs rank bound' p).
      { intros bound' Hle p. induction 1; constructor; first [done|lia|eauto]. }
      by apply Hf. }
    destruct (instance r) as [v|]; [|done]. rewrite Hstrategy. apply returns_ret.
  - intros w Hw. unfold populate. unfold collection_ids in Hdeps'.
    destruct (collectionDependencies r) as [[ids|entries]|].
    + destruct (instanceof w inst ArrayLike); [|by apply returns_ret].
      apply settled_push_all; [|done]. intros d Hd. apply Hdeps'. apply elem_of_app. by right.
    + destruct (instanceof w inst MapLike); [|by apply returns_ret].
      apply settled_set_all; [|done]. intros d Hd. apply Hdeps'. apply elem_of_app. by right.
    + by apply returns_ret.
  - intros w Hw. pose proof Hw as (Hregs & Hwf & Hthis). unfold store.
    assert (Hs : has_strategy r).
    { unfold has_strategy. destruct (constructor r); [by eauto|].
      destruct (factory r); [by eauto|]. destruct (instance r); [by eauto 10|done]. }
    destruct (lifetime r) eqn:Hl.
    + rewrite (root_of_root fuel w this) by done.
      eexists _, _. split; [done|]. eapply settled_changes; [done|].
      eapply cache_set_changes; [by rewrite Hregs|done|].
      left. split; [done|]. by apply root_parentless.
    + by eexists _, _.
    + eexists _, _. split; [done|]. eapply settled_changes; [done|].
      eapply cache_set_changes; [by rewrite Hregs|done|]. by right.
Qed.
End Totality.

(** Over resolvable registrations every [get] on a node returns an instance,
    given fuel for the rank of the identifier and the depth of the node. *)
Theorem get_returns (rank : Identifier -> nat) (this : nat) (fuel : nat) :
  forall id w,
    resolvable (registrations w) rank ->
    tree_wf w -> this < length (nodes w) ->
    is_Some (jsmap_get (registrations w) id) ->
    rank id + this + 2 <= fuel ->
    exists v w', get fuel this id w = Some (Ok v, w').
Proof.
  induction fuel as [|fuel IH]; intros id w Hres Hwf Hthis [r Hr] Hfuel; [lia|].
  assert (Hcreate : returns_in (settled (registrations w) this)
                      (createInstance (get fuel this) fuel this id r)).
  { apply (settled_createInstance (registrations w) rank this Hres (get fuel this) (rank id));
      [|done|lia|lia|intros d; apply get_changes].
    intros d Hd Hrank w0 (Hregs0 & Hwf0 & Hthis0).
    destruct (IH d w0) as (v & w' & Hrun); [by rewrite Hregs0|done|done|by rewrite Hregs0|lia|].
    exists v, w'. split; [done|].
    eapply settled_changes; [done|]. by eapply get_changes. }
  assert (Hw : settled (registrations w) this w) by done.
  destruct (Hcreate w Hw) as (v & w' & Hrun & _).
  rewrite get_unfold, Hr.
  destruct (decide (lifetime r = lt_transient)); [by eauto|].
  destruct (getScopedInstance_total fuel w this id Hwf) as [inst ->]; [lia|].
  destruct (truthy inst); by eauto.
Qed.

(** ** Validation is sound: a built container resolves *)

Lemma jsmap_get_elem {V} (m : list (Identifier * V)) k v :
  jsmap_get m k = Some v -> (k, v) ∈ m.
Proof.
  induction m as [|[k' v'] m IH]; simpl; [done|].
  destruct (decide (k' = k)) as [->|_].
  - intros [= ->]. by left.
  - intros Hm. right. by apply IH.
Qed.

Lemma verifyRegistrations_Ok regs :
  verifyRegistrations regs = Ok tt -> Forall (fun e => complete regs e.2) regs.
Proof.
  intros Hok. destruct (decide (Forall (fun e => complete regs e.2) regs)) as [|Hnot]; [done|].
  apply first_incomplete in Hnot as (pre & id & r & post & Heq & Hpre & Hr).
  unfold verifyRegistrations in Hok. rewrite Heq in Hok at 2.
  by rewrite verify_entries_first in Hok.
Qed.

Lemma check_entries_Ok fuel regs entries :
  check_entries fuel regs entries = Some (Ok tt) ->
  forall id r, (id, r) ∈ entries ->
    checkCircularDependencies fuel regs id r [] = Some (Ok tt).
Proof.
  induction entries as [|[id0 r0] entries IH]; simpl; intros Hok id r Hin.
  - by apply elem_of_nil in Hin.
  - destruct (checkCircularDependencies fuel regs id0 r0 []) as [[[]|]|] eqn:Hc; [|done..].
    apply elem_of_cons in Hin as [[= -> ->]|Hin]; [done|]. by apply IH.
Qed.

Lemma check_each_Ok rec regs id path deps :
  check_each rec regs id path deps = Some (Ok tt) ->
  forall d, d ∈ deps ->
    id <> d /\
    forall rd, jsmap_get regs d = Some rd ->
      (0 <? length (dependencies rd))%nat = true ->
      rec rd (path ++ [name d]) = Some (Ok tt).
Proof.
  induction deps as [|d0 deps IH]; simpl; intros Hok d Hin.
  - by apply elem_of_nil in Hin.
  - destruct (decide (id = d0)) as [|Hne]; [done|].
    assert (Hrest : check_each rec regs id path deps = Some (Ok tt) /\
                    forall rd, jsmap_get regs d0 = Some rd ->
                      (0 <? length (dependencies rd))%nat = true ->
                      rec rd (path ++ [name d0]) = Some (Ok tt)).
    { destruct (jsmap_get regs d0) as [rd0|]; [|by split].
      destruct (0 <? length (dependencies rd0))%nat eqn:Hlen0;
        [|split; [done|]; intros rd [= <-] Hlen; congruence].
      destruct (rec rd0 (path ++ [name d0])) as [[[]|]|] eqn:Hrec; [|done..].
      split; [done|]. by intros rd [= <-] _. }
    destruct Hrest as [Hrest Hd0].
    apply elem_of_cons in Hin as [->|Hin]; [done|]. by apply IH.
Qed.

(** Once the exploration below a registration has returned, more fuel does
    not change the height. *)
Lemma height_stable regs id fuel :
  forall r path fuel',
    checkCircularDependencies fuel regs id r path = Some (Ok tt) ->
    fuel <= fuel' -> height regs fuel' r = height regs fuel r.
Proof.
  induction fuel as [|fuel IH]; intros r path fuel' Hok Hle; [done|].
  destruct fuel' as [|fuel']; [lia|]. simpl. f_equal. f_equal.
  apply list_fmap_ext. intros i d Hd.
  destruct (jsmap_get regs d) as [rd|] eqn:Hrd; [|done].
  destruct (0 <? length (dependencies rd))%nat eqn:Hlen; [|done].
  simpl in Hok. apply list_elem_of_lookup_2 in Hd.
  destruct (check_each_Ok _ _ _ _ _ Hok d Hd) as [_ Hrec].
  eapply IH; [by apply Hrec|lia].
Qed.

Lemma sealed_fprog_ok regs rank bound p : sealed p -> fprog_ok regs rank bound p.
Proof. induction 1; [constructor|lia|by constructor]. Qed.

Lemma well_built_with_container regs : well_built regs -> well_built (with_container regs).
Proof.
  intros Hwb id r Hin.
  destruct (with_container_entries regs) as [Heq|Heq]; rewrite Heq in Hin;
    [by apply (Hwb id r)|].
  apply elem_of_app in Hin as [Hin|Hin]; [by apply (Hwb id r)|].
  apply list_elem_of_singleton in Hin as [= -> ->]. split.
  - intros c. constructor.
  - intros d Hd. by apply elem_of_nil in Hd.
Qed.

Lemma build_checked fuel regs w :
  build fuel regs = Some (Ok w) ->
  verifyRegistrations (with_container regs) = Ok tt /\
  verifyNoCircularDependencies fuel (with_container regs) = Some (Ok tt).
Proof.
  unfold build. destruct (verifyRegistrations _) as [[]|]; [|done].
  by destruct (verifyNoCircularDependencies _ _) as [[[]|]|].
Qed.

(** The registrations of a container that [build] has returned are
    resolvable, ranked by the height of their dependency trees. *)
Theorem validated_resolvable fuel regs w :
  build fuel regs = Some (Ok w) -> well_built regs ->
  resolvable (registrations w) (rank_of (registrations w) fuel).
Proof.
  intros Hb Hwb. pose proof (build_checked _ _ _ Hb) as [Hverify Hcheck].
  apply build_Ok in Hb as ->. simpl registrations.
  apply well_built_with_container in Hwb.
  set (regs' := with_container regs) in *.
  apply verifyRegistrations_Ok in Hverify.
  intros id r Hr. pose proof (jsmap_get_elem _ _ _ Hr) as Hin.
  destruct (Hwb id r Hin) as [Hstrategy Hdeclared]. split.
  - destruct (constructor r); [done|]. destruct (factory r) as [f|]; [|done].
    intros c. by apply sealed_fprog_ok.
  - intros d Hd. apply Hdeclared in Hd.
    rewrite Forall_forall in Hverify. specialize (Hverify _ Hin). simpl in Hverify.
    unfold complete in Hverify. rewrite Forall_forall in Hverify.
    split; [by apply jsmap_has_true, Hverify|].
    pose proof (check_entries_Ok _ _ _ Hcheck id r Hin) as Hok.
    unfold rank_of at 2. rewrite Hr.
    assert (Hlen : (0 <? length (dependencies r))%nat = true).
    { apply Nat.ltb_lt. destruct (dependencies r); [by apply elem_of_nil in Hd|simpl; lia]. }
    rewrite Hlen. destruct fuel as [|fuel]; [done|]. simpl height.
    apply Nat.lt_succ_r.
    etransitivity; [|apply max_list_elem_of_le, list_elem_of_fmap_2, Hd].
    unfold rank_of. destruct (jsmap_get regs' d) as [rd|] eqn:Hrd; [|done].
    destruct (0 <? length (dependencies rd))%nat eqn:Hlend; [|done].
    simpl in Hok. destruct (check_each_Ok _ _ _ _ _ Hok d Hd) as [_ Hrec].
    rewrite (height_stable regs' id fuel rd ([] ++ [name d]) (S fuel));
      [done|by apply Hrec|lia].
Qed.

(** After a successful [build], every registered identifier resolves on the
    root. *)
Theorem built_container_resolves fuel regs w id :
  build fuel regs = Some (Ok w) -> well_built regs ->
  is_Some (jsmap_get (registrations w) id) ->
  forall f, rank_of (registrations w) fuel id + 2 <= f ->
    exists v w', get f 0 id w = Some (Ok v, w').
Proof.
  intros Hb Hwb Hid f Hf.
  apply (get_returns (rank_of (registrations w) fuel) 0 f); [|..|lia].
  - by eapply validated_resolvable.
  - apply build_Ok in Hb as ->. apply Inv_new_container.
  - apply build_Ok in Hb as ->. simpl. lia.
  - done.
Qed.

(** ** The scenarios are reachable *)

Lemma reachable_world_of fuel regs :
  is_Some (build fuel regs) -> (forall e, build fuel regs <> Some (Thrown e)) ->
  reachable (world_of (build fuel regs)).
Proof.
  intros [[w|e] Hb] Hok; [|by destruct (Hok e)].
  apply (reach_build fuel regs). by rewrite Hb.
Defined.

Ltac built := apply reachable_world_of; [by eexists|by intros e].

Lemma reachable_after_get fuel this id w :
  reachable w -> this < length (nodes w) -> reachable (after_get fuel this id w).
Proof.
  intros Hw Hthis. unfold after_get.
  destruct (get fuel this id w) as [[res w']|] eqn:Hget; [|done].
  by eapply reach_get.
Defined.

Lemma two_scopes_reachable w : reachable w -> 0 < length (nodes w) -> reachable (two_scopes w).
Proof.
  intros Hw Hlen. unfold two_scopes.
  apply reach_scope; [by apply reach_scope|]. simpl. rewrite length_app. lia.
Defined.

Lemma transient_world_reachable : reachable transient_world.
Proof. unfold transient_world. built. Defined.

Lemma falsy_world_reachable v : reachable (falsy_world v).
Proof. unfold falsy_world. built. Defined.

Lemma database_world_reachable : reachable database_world.
Proof. unfold database_world. built. Defined.

Lemma request_world_reachable : reachable request_world.
Proof. unfold request_world. built. Defined.

Lemma request_world_resolvable :
  resolvable (registrations (two_scopes request_world)) (fun _ => 0).
Proof.
  intros id r Hr. simpl in Hr.
  repeat (case_decide; [injection Hr as <-; split; [by try constructor|];
                        intros d Hd; by apply elem_of_nil in Hd|]).
  done.
Defined.

Lemma proxy_world_resolvable :
  resolvable (registrations proxy_world)
    (fun id => if decide (id = "Proxy") then 1 else 0).
Proof.
  intros id r Hr. simpl in Hr.
  repeat (case_decide; [injection Hr as <-; subst id; split;
                        [by repeat constructor|];
                        intros d Hd; by apply elem_of_nil in Hd|]).
  done.
Defined.

(** ** Failures and falsy instances *)

Lemma entries_none_unresolved w c id :
  (forall n, instances (node_at w n) !! id = None) -> unresolved w c id.
Proof. intros Hnone n _. unfold cache_get. by rewrite Hnone. Qed.

Lemma no_strategy_no_entry w id r :
  Inv w -> jsmap_get (registrations w) id = Some r -> ~ has_strategy r ->
  forall n, instances (node_at w n) !! id = None.
Proof.
  intros [_ Hcache] Hr Hno n.
  destruct (instances (node_at w n) !! id) as [v|] eqn:Hv; [|done].
  destruct (Hcache n id) as (r' & Hr' & Hs & _); [by eauto|].
  rewrite Hr in Hr'. injection Hr' as <-. by destruct Hno.
Qed.

(** C8. A [get] for an identifier that has no registration fails with
    [RegistrationNotFound], and a [get] for a registration that has no
    constructor, no factory and no instance fails with [InvalidRegistration];
    in both cases the world after the call is the world before it, so no
    instance cache of any node has changed. *)
Theorem get_failure_atomic :
  (forall w this id fuel,
     jsmap_get (registrations w) id = None ->
     get (S fuel) this id w = Some (Thrown (RegistrationNotFound id), w)) /\
  (forall w this id r fuel,
     reachable w ->
     jsmap_get (registrations w) id = Some r ->
     constructor r = None -> factory r = None -> instance r = None ->
     this < fuel ->
     get (S fuel) this id w = Some (Thrown (InvalidRegistration id), w)).
Proof.
  split.
  - intros w this id fuel Hr. by rewrite get_unfold, Hr.
  - intros w this id r fuel Hreach Hr Hc Hf Hi Hfuel.
    pose proof (reachable_Inv w Hreach) as HInv.
    assert (Hno : ~ has_strategy r).
    { intros [[? Hx]|[[? Hx]|(v & Hx & _)]]; congruence. }
    rewrite (get_miss fuel this id r w); [|apply HInv|done..|].
    + unfold createInstance, bind, construct. by rewrite Hc, Hf, Hi.
    + apply entries_none_unresolved. by eapply no_strategy_no_entry.
Qed.

Lemma get_failure_atomic_witness :
  get 1 0 "DatabaseService" transient_world =
    Some (Thrown (RegistrationNotFound "DatabaseService"), transient_world) /\
  get 2 0 "Broken" transient_world =
    Some (Thrown (InvalidRegistration "Broken"), transient_world).
Proof.
  destruct get_failure_atomic as [Hnone Hbroken]. split.
  - by apply Hnone.
  - eapply Hbroken; [apply transient_world_reachable|reflexivity..|lia].
Defined.

(** After a [get] that returned a falsy instance, the chain of the resolving
    node still holds no truthy entry. *)
Lemma falsy_result_unresolved fuel this id r w v w1 :
  Inv w -> this < length (nodes w) ->
  jsmap_get (registrations w) id = Some r -> lifetime r <> lt_transient ->
  get fuel this id w = Some (Ok v, w1) -> truthy v = false ->
  instances (node_at w1 (match lifetime r with lt_singleton => 0 | _ => this end)) !! id
    = Some v /\
  unresolved w1 this id.
Proof.
  intros [Hwf Hcache] Hthis Hr Hl Hget Hv.
  pose proof (get_changes fuel this id w _ w1 Hget) as Hch.
  apply get_inv in Hget as (fuel' & -> & Hcases). rewrite Hr in Hcases.
  destruct Hcases as [(_ & _ & inst & [= <-] & Ht & _)|[Hmiss Hrun]]; [congruence|].
  destruct Hmiss as [?|(inst & Hinst & Hwalk)]; [done|].
  pose proof (walk_falsy_unresolved _ _ _ _ _ Hwalk Hinst) as Hun.
  eapply createInstance_stored in Hrun; [|intros id'; apply get_changes|done..].
  assert (Hstored :
    instances (node_at w1 (match lifetime r with lt_singleton => 0 | _ => this end)) !! id
    = Some v).
  { by destruct (lifetime r). }
  split; [done|].
  pose proof Hch as (_ & Hparents & _ & Hentries).
  intros n Hn. apply (on_chain_ext w1 w) in Hn; [|done].
  destruct (Hentries n id) as [Hsame|(r' & v' & Hr' & _ & Hv' & Hplace)].
  { unfold cache_get. rewrite Hsame. by apply Hun. }
  rewrite Hr in Hr'. injection Hr' as <-.
  assert (Hloc : n = match lifetime r with lt_singleton => 0 | _ => this end).
  { destruct Hplace as [[Hls Hroot]|[Hls ->]]; rewrite Hls; [|done].
    apply (parent_None_root w n Hwf); [|done].
    apply (on_chain_le _ _ _ Hwf) in Hn. lia. }
  unfold cache_get. by rewrite Hloc, Hstored.
Qed.

(** C10. The cache lookup tests the cached value, not the presence of the
    key. In a reachable world, for a registration that is not transient:
    when every node from the resolving node up to the root holds no entry or
    a falsy entry under the identifier, [get] runs [createInstance] again; a
    truthy entry at the resolving node is returned without constructing
    anything; and after a [get] that returned a falsy instance the instance
    is stored under the identifier (in the root for a singleton, in the
    resolving node for a scoped registration), yet the next [get] on that
    node runs [createInstance] again. *)
Theorem falsy_instance_is_a_miss (w : World) (this : nat) (id : Identifier)
    (r : Registration) (fuel : nat) :
  reachable w ->
  jsmap_get (registrations w) id = Some r ->
  lifetime r <> lt_transient ->
  this < fuel ->
  (unresolved w this id ->
   get (S fuel) this id w = createInstance (get fuel this) fuel this id r w) /\
  (truthy (cache_get w this id) = true ->
   get (S fuel) this id w = Some (Ok (cache_get w this id), w)) /\
  (forall fuel0 v w1,
     this < length (nodes w) ->
     get fuel0 this id w = Some (Ok v, w1) -> truthy v = false ->
     instances (node_at w1 (match lifetime r with lt_singleton => 0 | _ => this end)) !! id
       = Some v /\
     get (S fuel) this id w1 = createInstance (get fuel this) fuel this id r w1).
Proof.
  intros Hreach Hr Hl Hfuel. pose proof (reachable_Inv w Hreach) as HInv.
  split; [|split].
  - intros Hun. apply get_miss; [apply HInv|done..].
  - intros Ht. destruct fuel as [|fuel]; [lia|].
    eapply get_hit; [done..| |done]. by apply getScopedInstance_here.
  - intros fuel0 v w1 Hthis Hget Hv.
    destruct (falsy_result_unresolved fuel0 this id r w v w1) as [Hstored Hun]; [done..|].
    split; [done|].
    pose proof (get_changes fuel0 this id w _ w1 Hget) as (Hregs & Hparents & _).
    apply get_miss; [|by rewrite Hregs|done..].
    eapply tree_wf_ext; [done|apply HInv].
Qed.

Lemma falsy_instance_is_a_miss_witness :
  (instances (node_at (flag_resolved VNull) 0) !! "Flag" = Some VNull /\
   get 3 0 "Flag" (flag_resolved VNull) =
     createInstance (get 2 0) 2 0 "Flag" (useFactory (returning VNull) lt_singleton)
       (flag_resolved VNull)) /\
  get 3 0 "Flag" (falsy_world VNull) =
    createInstance (get 2 0) 2 0 "Flag" (useFactory (returning VNull) lt_singleton)
      (falsy_world VNull).
Proof.
  destruct (falsy_instance_is_a_miss (falsy_world VNull) 0 "Flag"
              (useFactory (returning VNull) lt_singleton) 2)
    as (Hmiss & _ & Hagain);
    [apply falsy_world_reachable|reflexivity|done|lia|].
  split.
  - apply (Hagain 3 VNull (flag_resolved VNull)); [simpl; lia|by vm_compute|reflexivity].
  - apply Hmiss. by apply (walk_falsy_unresolved 1 _ _ _ VUndefined).
Defined.

(** The falsy values of the language, one by one: the first [get] stores the
    value under the key in the root cache, and the second [get] runs the
    factory again, which allocates its scratch object a second time. *)
Lemma falsy_values_reconstructed :
  Forall (fun v =>
    fst <$> get 3 0 "Flag" (falsy_world v) = Some (Ok v) /\
    instances (node_at (flag_resolved v) 0) !! "Flag" = Some v /\
    fst <$> get 3 0 "Flag" (flag_resolved v) = Some (Ok v) /\
    length (objects (flag_resolved v)) = 1 /\
    length (objects (after_get 3 0 "Flag" (flag_resolved v))) = 2)
  [VNull; VUndefined; VNum 0; VStr ""; VBool false].
Proof. repeat constructor; by vm_compute. Qed.

(** A truthy value is constructed once. *)
Lemma truthy_value_cached :
  get 3 0 "Flag" (flag_resolved (VNum 1)) = Some (Ok (VNum 1), flag_resolved (VNum 1)).
Proof. by vm_compute. Qed.

(** ** [build] and the container's own registration *)

Lemma get_container_registration fuel regs :
  jsmap_get (with_container regs) Container = Some container_registration ->
  get (S (S fuel)) 0 Container (new_container (with_container regs)) =
  Some (Ok (VContainer 0),
        cache_set 0 Container (VContainer 0) (new_container (with_container regs))).
Proof.
  intros Hr. rewrite get_unfold. simpl registrations. rewrite Hr. reflexivity.
Qed.

Lemma instanceof_no_objects w v s : objects w = [] -> instanceof w v s = None.
Proof. intros Hw. destruct v; simpl; try done. by rewrite Hw. Qed.

Lemma get_instance_registration fuel regs id r v :
  jsmap_get regs id = Some r ->
  constructor r = None -> factory r = None -> instance r = Some v ->
  truthy v = true ->
  exists w', get (S (S fuel)) 0 id (new_container regs) = Some (Ok v, w').
Proof.
  intros Hr Hc Hf Hi Hv. rewrite get_unfold. simpl registrations. rewrite Hr.
  assert (Hcreate : exists w',
    createInstance (get (S fuel) 0) (S fuel) 0 id r (new_container regs) = Some (Ok v, w')).
  { unfold createInstance, bind, construct, populate, store.
    rewrite Hc, Hf, Hi, Hv. unfold ret.
    rewrite !instanceof_no_objects by done.
    destruct (collectionDependencies r) as [[ids|entries]|];
      destruct (lifetime r); simpl; by eauto. }
  destruct (decide (lifetime r = lt_transient)); [done|].
  simpl. done.
Qed.

Lemma with_container_fresh regs :
  jsmap_has regs Container = false ->
  with_container regs = regs ++ [(Container, container_registration)].
Proof.
  intros Hhas. unfold with_container. rewrite Hhas.
  by apply jsmap_set_fresh, jsmap_has_false.
Qed.

Lemma evolves_reachable w w' : reachable w -> evolves w w' -> reachable w'.
Proof.
  intros Hw. induction 1 as [|w1 fuel c id res w2 _ IH Hc Hget|w1 c _ IH Hc
                             |w1 c id inst _ IH Hc Hinst].
  - done.
  - by eapply reach_get.
  - by apply reach_scope.
  - by apply reach_override.
Qed.

(** Under the self-registration, the first node that asks for [Container]
    gets itself, and the root caches it. *)
Lemma get_container_first fuel c w :
  Inv w ->
  jsmap_get (registrations w) Container = Some container_registration ->
  c < length (nodes w) -> c < fuel ->
  instances (node_at w 0) !! Container = None ->
  get (S fuel) c Container w =
  Some (Ok (VContainer c), cache_set 0 Container (VContainer c) w).
Proof.
  intros HInv Hr Hc Hfuel Hnone. pose proof HInv as [Hwf _].
  rewrite (get_miss fuel c Container container_registration); [|done..|].
  - unfold createInstance, bind, construct, populate, store. simpl.
    by rewrite (root_of_root fuel w c Hwf Hfuel Hc).
  - apply entries_none_unresolved. intros [|n]; [done|].
    by apply (singleton_only_root w Container container_registration).
Qed.

(** Afterwards every node gets what the root has cached. *)
Lemma get_container_cached fuel c w v :
  Inv w ->
  jsmap_get (registrations w) Container = Some container_registration ->
  c < length (nodes w) -> c < fuel ->
  instances (node_at w 0) !! Container = Some v -> truthy v = true ->
  get (S fuel) c Container w = Some (Ok v, w).
Proof.
  intros HInv Hr Hc Hfuel Hsome Hv. pose proof HInv as [Hwf _].
  eapply get_hit; [done|done| |done].
  assert (v = cache_get w 0 Container) as ->
    by (unfold cache_get; by rewrite Hsome).
  apply getScopedInstance_root; [done..|].
  by apply (singleton_only_root w Container container_registration).
Qed.

(** C9 (amended). When [build] returns a container, its root is node [0]
    with an empty cache and no object. If the caller registered nothing
    under [Container], the registration map is the caller's registrations
    in their order followed by the singleton, factory-based
    self-registration, and [get(Container)] on the fresh root returns the
    root itself and stores it in the root's cache. If the caller registered
    [Container], the map is exactly the caller's, so that registration is
    the one resolved, and a registered instance is what [get(Container)]
    returns. In every world that the container evolves into and in which
    [Container] still has the self-registration, [get(Container)] returns
    the container that asked first: a node that asks while the root's cache
    holds nothing under [Container] gets itself, and the root caches it;
    once the root's cache holds a container, every node, the root too, gets
    that one. *)
Theorem build_registers_container (regs : RegMap) (fuel : nat) (w : World) :
  build fuel regs = Some (Ok w) ->
  nodes w = [empty_node] /\ objects w = [] /\
  (jsmap_has regs Container = false ->
   registrations w = regs ++ [(Container, container_registration)] /\
   jsmap_get (registrations w) Container = Some container_registration /\
   lifetime container_registration = lt_singleton /\
   forall f, 2 <= f ->
     get f 0 Container w =
       Some (Ok (VContainer 0), cache_set 0 Container (VContainer 0) w)) /\
  (forall r, jsmap_get regs Container = Some r ->
   registrations w = regs /\
   forall v, constructor r = None -> factory r = None -> instance r = Some v ->
     truthy v = true ->
     forall f, 2 <= f -> exists w', get f 0 Container w = Some (Ok v, w')) /\
  (forall w', evolves w w' ->
   jsmap_get (registrations w') Container = Some container_registration ->
   forall c f, c < length (nodes w') -> c + 2 <= f ->
     (instances (node_at w' 0) !! Container = None ->
      get f c Container w' =
        Some (Ok (VContainer c), cache_set 0 Container (VContainer c) w')) /\
     (forall v, instances (node_at w' 0) !! Container = Some v -> truthy v = true ->
      get f c Container w' = Some (Ok v, w'))).
Proof.
  intros Hb. pose proof (reach_build _ _ _ Hb) as Hreach.
  apply build_Ok in Hb as ->. split; [done|]. split; [done|]. split; [|split].
  - intros Hhas. split; [by apply with_container_fresh|].
    apply jsmap_has_false in Hhas.
    assert (Hr : jsmap_get (with_container regs) Container = Some container_registration).
    { rewrite with_container_get, Hhas. by rewrite decide_True. }
    split; [done|]. split; [done|].
    intros [|[|f]] Hf; [lia|lia|]. by apply get_container_registration.
  - intros r Hr.
    assert (Hsame : with_container regs = regs).
    { unfold with_container. unfold jsmap_has. by rewrite Hr. }
    split; [by rewrite Hsame|].
    intros v Hc Hfa Hi Hv [|[|f]] Hf; [lia|lia|].
    rewrite Hsame. by eapply get_instance_registration.
  - intros w' Hev Hr c f Hc Hf.
    pose proof (reachable_Inv w' (evolves_reachable _ _ Hreach Hev)) as HInv.
    destruct f as [|f]; [lia|]. split.
    + intros Hnone. apply get_container_first; [done..|lia|done].
    + intros v Hsome Hv. apply get_container_cached; [done..|lia|done|done].
Qed.

(** The theorem at a container without a caller's [Container], at one with
    a caller's [Container], and at a scope that asks before the root does. *)
Lemma build_registers_container_witness :
  registrations database_world = database_regs ++ [(Container, container_registration)] /\
  get 2 0 Container database_world =
    Some (Ok (VContainer 0), cache_set 0 Container (VContainer 0) database_world) /\
  (exists w', get 2 0 Container (world_of (build 2 custom_container_regs)) =
    Some (Ok customContainer, w')) /\
  get 3 1 Container (two_scopes database_world) =
    Some (Ok (VContainer 1),
          cache_set 0 Container (VContainer 1) (two_scopes database_world)) /\
  get 2 0 Container (cache_set 0 Container (VContainer 1) (two_scopes database_world)) =
    Some (Ok (VContainer 1),
          cache_set 0 Container (VContainer 1) (two_scopes database_world)).
Proof.
  destruct (build_registers_container database_regs 2 database_world)
    as (_ & _ & Hself & _ & Hlater); [reflexivity|].
  destruct Hself as (Hmap & _ & _ & Hget); [reflexivity|].
  assert (Hscopes : evolves database_world (two_scopes database_world)).
  { unfold two_scopes. apply evolves_scope; [apply evolves_scope; [constructor|]|];
      simpl; lia. }
  split; [exact Hmap|]. split; [by apply Hget|]. split; [|split].
  - destruct (build_registers_container custom_container_regs 2
                (world_of (build 2 custom_container_regs))) as (_ & _ & _ & Hcustom & _);
      [reflexivity|].
    destruct (Hcustom (useInstance customContainer)) as [_ Hinst]; [reflexivity|].
    by apply (Hinst customContainer).
  - destruct (Hlater (two_scopes database_world) Hscopes eq_refl 1 3) as [Hfirst _];
      [simpl; lia|lia|]. by apply Hfirst.
  - destruct (Hlater (cache_set 0 Container (VContainer 1) (two_scopes database_world)))
      with (c := 0) (f := 2) as [_ Hcached].
    + apply (evolves_get _ (two_scopes database_world) 3 1 Container (Ok (VContainer 1)));
        [done|simpl; lia|by vm_compute].
    + reflexivity.
    + simpl. lia.
    + lia.
    + by apply (Hcached (VContainer 1)).
Defined.

(** C9 (as stated) fails: on the container built from [database_regs], the
    first scope asks for [Container] before the root does; the root then
    returns that scope, not itself. *)
Lemma root_get_container_returns_first_resolver :
  jsmap_has database_regs Container = false /\
  build 2 database_regs = Some (Ok database_world) /\
  evolves database_world (after_get 3 1 Container (two_scopes database_world)) /\
  fst <$> get 3 0 Container (after_get 3 1 Container (two_scopes database_world)) =
    Some (Ok (VContainer 1)) /\
  ~ root_resolves_itself database_regs.
Proof.
  assert (Hev : evolves database_world
                  (after_get 3 1 Container (two_scopes database_world))).
  { apply (evolves_get _ (two_scopes database_world) 3 1 Container (Ok (VContainer 1)));
      [|simpl; lia|by vm_compute].
    unfold two_scopes. apply evolves_scope; [apply evolves_scope; [constructor|]|];
      simpl; lia. }
  split; [reflexivity|]. split; [reflexivity|]. split; [exact Hev|].
  split; [by vm_compute|].
  intros Hclaim.
  assert (Hget : get 3 0 Container (after_get 3 1 Container (two_scopes database_world)) =
                 Some (Ok (VContainer 1),
                       after_get 3 1 Container (two_scopes database_world)))
    by by vm_compute.
  by specialize (Hclaim eq_refl 2 database_world _ 3 _ _ eq_refl Hev Hget).
Qed.

(** The self-registration is a singleton whose factory returns the container
    it is handed: when a scope is the first to resolve [Container], that
    scope is what the root's cache holds and what the root returns later. *)
Lemma container_is_first_resolver :
  fst <$> get 3 1 Container (two_scopes database_world) = Some (Ok (VContainer 1)) /\
  fst <$> get 3 0 Container (after_get 3 1 Container (two_scopes database_world)) =
    Some (Ok (VContainer 1)).
Proof. split; by vm_compute. Qed.

(** ** Singleton lifetime *)

(** C5 (amended). In a reachable world, for an identifier registered as
    singleton: once a [get] on some node has returned a truthy instance, the
    root's cache holds that instance under the identifier, and a [get] on
    any node of the tree returns the same instance and leaves the world
    unchanged, so nothing is constructed again. *)
Theorem singleton_identity_truthy (w : World) (id : Identifier) (r : Registration)
    (s1 s2 fuel : nat) (v : Value) (w1 : World) :
  reachable w ->
  jsmap_get (registrations w) id = Some r ->
  lifetime r = lt_singleton ->
  s1 < length (nodes w) -> s2 < length (nodes w) ->
  get fuel s1 id w = Some (Ok v, w1) ->
  truthy v = true ->
  instances (node_at w1 0) !! id = Some v /\
  forall fuel2, s2 + 2 <= fuel2 -> get fuel2 s2 id w1 = Some (Ok v, w1).
Proof.
  intros Hreach Hr Hl Hs1 Hs2 Hget Hv.
  pose proof (reachable_Inv w Hreach) as HInv.
  pose proof (get_changes fuel s1 id w _ w1 Hget) as Hch.
  pose proof (Inv_changes _ _ _ HInv Hch) as HInv1.
  destruct Hch as (Hregs & Hparents & _).
  assert (Hroot : instances (node_at w1 0) !! id = Some v).
  { apply get_inv in Hget as (fuel' & -> & Hcases). rewrite Hr in Hcases.
    destruct Hcases as [(_ & -> & inst & [= <-] & _ & Hwalk)|[_ Hrun]].
    - apply getScopedInstance_result in Hwalk as (n & _ & ->).
      apply cache_get_truthy in Hv.
      destruct (decide (n = 0)) as [->|Hn]; [done|].
      by rewrite (singleton_only_root w id r HInv Hr Hl n Hn) in Hv.
    - eapply createInstance_stored in Hrun; [|intros id'; apply get_changes|apply HInv|done].
      by rewrite Hl in Hrun. }
  split; [done|]. intros fuel2 Hfuel2.
  destruct fuel2 as [|fuel2]; [lia|].
  eapply get_hit; [by rewrite Hregs|by rewrite Hl| |done].
  rewrite (getScopedInstance_root fuel2 w1 s2 id).
  - unfold cache_get. by rewrite Hroot.
  - apply HInv1.
  - lia.
  - by rewrite (length_nodes_ext w w1).
  - eapply singleton_only_root; [done|by rewrite Hregs|done].
Qed.

Lemma singleton_identity_truthy_witness :
  instances (node_at (after_get 3 1 "DatabaseService" (two_scopes database_world)) 0)
    !! "DatabaseService" = Some (VObj 0) /\
  forall fuel2, 2 + 2 <= fuel2 ->
    get fuel2 2 "DatabaseService"
      (after_get 3 1 "DatabaseService" (two_scopes database_world)) =
    Some (Ok (VObj 0), after_get 3 1 "DatabaseService" (two_scopes database_world)).
Proof.
  apply (singleton_identity_truthy (two_scopes database_world) "DatabaseService"
           (useClass (class "DatabaseService") [] lt_singleton) 1 2 3).
  - apply two_scopes_reachable; [apply database_world_reachable|simpl; lia].
  - reflexivity.
  - reflexivity.
  - simpl. lia.
  - simpl. lia.
  - by vm_compute.
  - reflexivity.
Defined.

(** C5 (as stated) fails: a singleton whose factory returns [null] is stored
    in the root's cache, yet the next [get] runs the factory again. *)
Lemma singleton_identity_fails_for_falsy :
  reachable (falsy_world VNull) /\
  lifetime <$> jsmap_get (registrations (falsy_world VNull)) "Flag" = Some lt_singleton /\
  ~ singleton_identity (falsy_world VNull) "Flag".
Proof.
  split; [apply falsy_world_reachable|]. split; [reflexivity|].
  intros Hclaim.
  destruct (Hclaim 0 0 3 VNull (flag_resolved VNull)) as [_ Hagain];
    [simpl; lia|simpl; lia|by vm_compute|].
  specialize (Hagain 3 ltac:(lia)).
  assert (Hlen : length (objects (after_get 3 0 "Flag" (flag_resolved VNull))) =
                 length (objects (flag_resolved VNull))).
  { unfold after_get at 1. by rewrite Hagain. }
  by vm_compute in Hlen.
Qed.

(** ** Scoped lifetime *)

(** Two children of one node that resolve a scoped, constructor-based
    identifier which nobody on their chains holds construct two objects. *)
Lemma siblings_construct_apart (w : World) (id : Identifier) (r : Registration)
    (ctor : Constructor) (s1 s2 p fuel1 fuel2 : nat) (v1 v2 : Value) (w1 w2 : World) :
  tree_wf w ->
  jsmap_get (registrations w) id = Some r ->
  lifetime r = lt_scoped ->
  constructor r = Some ctor ->
  s1 <> s2 ->
  parent (node_at w s1) = Some p -> parent (node_at w s2) = Some p ->
  unresolved w s1 id -> unresolved w s2 id ->
  get fuel1 s1 id w = Some (Ok v1, w1) ->
  get fuel2 s2 id w1 = Some (Ok v2, w2) ->
  v1 <> v2 /\
  instances (node_at w1 s1) !! id = Some v1 /\
  instances (node_at w2 s2) !! id = Some v2.
Proof.
  intros Hwf Hr Hl Hctor Hne Hp1 Hp2 Hun1 Hun2 Hget1 Hget2.
  pose proof (get_changes fuel1 s1 id w _ w1 Hget1) as Hch1.
  pose proof Hch1 as (Hregs1 & Hparents1 & _).
  assert (Hwf1 : tree_wf w1) by by eapply tree_wf_ext.
  assert (Hun2' : unresolved w1 s2 id).
  { eapply unresolved_ext; [done| |done].
    intros n Hn. eapply changes_entry_same; [done..|].
    right; left. split; [done|]. intros ->.
    inversion Hn as [|? p' ? Hp' Hup]; subst; [done|].
    rewrite Hp2 in Hp'. injection Hp' as <-.
    apply (on_chain_le _ _ _ Hwf) in Hup.
    apply (parent_Some_lt _ _ _ Hwf) in Hp1. lia. }
  destruct (get_fresh fuel1 s1 id r ctor w v1 w1) as (n1 & -> & Hn1); [by eauto..|].
  destruct (get_fresh fuel2 s2 id r ctor w1 v2 w2) as (n2 & -> & Hn2);
    [by rewrite Hregs1|by eauto..|].
  split; [intros [= ->]; lia|].
  assert (Hstored : forall fuel s w0 v w0',
    tree_wf w0 -> jsmap_get (registrations w0) id = Some r ->
    s < length (nodes w0) -> unresolved w0 s id ->
    get fuel s id w0 = Some (Ok v, w0') -> instances (node_at w0' s) !! id = Some v).
  { intros fuel s w0 v w0' Hwf0 Hr0 Hs Hun Hget.
    apply get_inv in Hget as (fuel' & -> & Hcases). rewrite Hr0 in Hcases.
    destruct Hcases as [(_ & _ & inst & _ & Ht & Hwalk)|[_ Hrun]].
    - by rewrite (walk_unresolved _ _ _ _ _ Hun Hwalk) in Ht.
    - eapply createInstance_stored in Hrun; [|intros id'; apply get_changes|done..].
      by rewrite Hl in Hrun. }
  split.
  - eapply Hstored; [exact Hwf|done| |done..].
    by destruct (parent_Some_lt _ _ _ Hwf Hp1).
  - eapply Hstored; [exact Hwf1|by rewrite Hregs1| |done..].
    rewrite (length_nodes_ext w w1) by done.
    by destruct (parent_Some_lt _ _ _ Hwf Hp2).
Qed.

(** Two children of one node that resolve a scoped identifier which nobody
    on their chains holds both run [createInstance], whatever the creation
    strategy, and each caches what it made in its own node; the second
    resolution leaves the cache of the first as it is. *)
Lemma siblings_each_construct (w : World) (id : Identifier) (r : Registration)
    (s1 s2 p fuel1 fuel2 : nat) (v1 v2 : Value) (w1 w2 : World) :
  tree_wf w ->
  jsmap_get (registrations w) id = Some r ->
  lifetime r = lt_scoped ->
  s1 <> s2 ->
  parent (node_at w s1) = Some p -> parent (node_at w s2) = Some p ->
  unresolved w s1 id -> unresolved w s2 id ->
  get fuel1 s1 id w = Some (Ok v1, w1) ->
  get fuel2 s2 id w1 = Some (Ok v2, w2) ->
  (exists f1, fuel1 = S f1 /\
     createInstance (get f1 s1) f1 s1 id r w = Some (Ok v1, w1)) /\
  (exists f2, fuel2 = S f2 /\
     createInstance (get f2 s2) f2 s2 id r w1 = Some (Ok v2, w2)) /\
  instances (node_at w1 s1) !! id = Some v1 /\
  instances (node_at w2 s2) !! id = Some v2 /\
  instances (node_at w2 s1) !! id = Some v1.
Proof.
  intros Hwf Hr Hl Hne Hp1 Hp2 Hun1 Hun2 Hget1 Hget2.
  pose proof (get_changes fuel1 s1 id w _ w1 Hget1) as Hch1.
  pose proof Hch1 as (Hregs1 & Hparents1 & _).
  pose proof (get_changes fuel2 s2 id w1 _ w2 Hget2) as Hch2.
  assert (Hr1 : jsmap_get (registrations w1) id = Some r) by by rewrite Hregs1.
  assert (Hwf1 : tree_wf w1) by by eapply tree_wf_ext.
  assert (Hun2' : unresolved w1 s2 id).
  { eapply unresolved_ext; [done| |done].
    intros n Hn. eapply changes_entry_same; [done..|].
    right; left. split; [done|]. intros ->.
    inversion Hn as [|? p' ? Hp' Hup]; subst; [done|].
    rewrite Hp2 in Hp'. injection Hp' as <-.
    apply (on_chain_le _ _ _ Hwf) in Hup.
    apply (parent_Some_lt _ _ _ Hwf) in Hp1. lia. }
  assert (Hran : forall fuel s w0 v w0',
    jsmap_get (registrations w0) id = Some r -> unresolved w0 s id ->
    get fuel s id w0 = Some (Ok v, w0') ->
    exists f, fuel = S f /\ createInstance (get f s) f s id r w0 = Some (Ok v, w0')).
  { intros fuel s w0 v w0' Hr0 Hun Hget.
    apply get_inv in Hget as (fuel' & -> & Hcases). rewrite Hr0 in Hcases.
    destruct Hcases as [(_ & _ & inst & _ & Ht & Hwalk)|[_ Hrun]].
    - by rewrite (walk_unresolved _ _ _ _ _ Hun Hwalk) in Ht.
    - by exists fuel'. }
  destruct (Hran _ _ _ _ _ Hr Hun1 Hget1) as (f1 & -> & Hrun1).
  destruct (Hran _ _ _ _ _ Hr1 Hun2' Hget2) as (f2 & -> & Hrun2).
  assert (Hs1 : s1 < length (nodes w)) by by destruct (parent_Some_lt _ _ _ Hwf Hp1).
  assert (Hs2 : s2 < length (nodes w1)).
  { rewrite (length_nodes_ext w w1) by done.
    by destruct (parent_Some_lt _ _ _ Hwf Hp2). }
  assert (Hst1 : instances (node_at w1 s1) !! id = Some v1).
  { pose proof (createInstance_stored _ _ _ _ _ _ _ _ (get_changes f1 s1) Hwf Hs1 Hrun1)
      as Hst. by rewrite Hl in Hst. }
  assert (Hst2 : instances (node_at w2 s2) !! id = Some v2).
  { pose proof (createInstance_stored _ _ _ _ _ _ _ _ (get_changes f2 s2) Hwf1 Hs2 Hrun2)
      as Hst. by rewrite Hl in Hst. }
  split; [by exists f1|]. split; [by exists f2|].
  split; [done|]. split; [done|].
  rewrite <- Hst1. eapply changes_entry_same; [done..|].
  right; left. by split.
Qed.

(** C6 (amended). In a reachable world, for an identifier registered as
    scoped, whatever its creation strategy: (isolation) when two distinct
    children of one node resolve the identifier while neither they nor any
    ancestor hold an instance of it, each of them runs [createInstance] and
    caches what it made in its own node, the second resolution leaving the
    cache of the first untouched, and the two instances differ when the
    registration is constructor-based; over resolvable registrations both
    calls do return; (inheritance) when a node has resolved the identifier
    to a truthy instance, a scope created under that node afterwards gets
    the same instance back and constructs nothing. *)
Theorem scoped_isolation_and_inheritance (w : World) (id : Identifier)
    (r : Registration) :
  reachable w ->
  jsmap_get (registrations w) id = Some r ->
  lifetime r = lt_scoped ->
  (forall s1 s2 p fuel1 fuel2 v1 w1 v2 w2,
     s1 <> s2 ->
     parent (node_at w s1) = Some p -> parent (node_at w s2) = Some p ->
     unresolved w s1 id -> unresolved w s2 id ->
     get fuel1 s1 id w = Some (Ok v1, w1) ->
     get fuel2 s2 id w1 = Some (Ok v2, w2) ->
     (exists f1, fuel1 = S f1 /\
        createInstance (get f1 s1) f1 s1 id r w = Some (Ok v1, w1)) /\
     (exists f2, fuel2 = S f2 /\
        createInstance (get f2 s2) f2 s2 id r w1 = Some (Ok v2, w2)) /\
     instances (node_at w1 s1) !! id = Some v1 /\
     instances (node_at w2 s2) !! id = Some v2 /\
     instances (node_at w2 s1) !! id = Some v1 /\
     (is_Some (constructor r) -> v1 <> v2)) /\
  (forall rank s1 s2 p fuel1 fuel2,
     resolvable (registrations w) rank ->
     s1 <> s2 ->
     parent (node_at w s1) = Some p -> parent (node_at w s2) = Some p ->
     unresolved w s1 id -> unresolved w s2 id ->
     rank id + s1 + 2 <= fuel1 -> rank id + s2 + 2 <= fuel2 ->
     exists v1 w1 v2 w2,
       get fuel1 s1 id w = Some (Ok v1, w1) /\
       get fuel2 s2 id w1 = Some (Ok v2, w2) /\
       instances (node_at w2 s1) !! id = Some v1 /\
       instances (node_at w2 s2) !! id = Some v2 /\
       (is_Some (constructor r) -> v1 <> v2)) /\
  (forall p fuel v w1,
     p < length (nodes w) ->
     get fuel p id w = Some (Ok v, w1) ->
     truthy v = true ->
     forall fuel2, p + 3 <= fuel2 ->
       get fuel2 (fst (createScopedContainer p w1)) id (snd (createScopedContainer p w1)) =
       Some (Ok v, snd (createScopedContainer p w1))).
Proof.
  intros Hreach Hr Hl. pose proof (reachable_Inv w Hreach) as HInv.
  split; [|split].
  - intros s1 s2 p fuel1 fuel2 v1 w1 v2 w2 Hne Hp1 Hp2 Hun1 Hun2 Hget1 Hget2.
    destruct (siblings_each_construct w id r s1 s2 p fuel1 fuel2 v1 v2 w1 w2)
      as (Hrun1 & Hrun2 & Hst1 & Hst2 & Hkept); [apply HInv|done..|].
    do 5 (split; [done|]). intros [ctor Hctor].
    by destruct (siblings_construct_apart w id r ctor s1 s2 p fuel1 fuel2 v1 v2 w1 w2);
      [apply HInv|..].
  - intros rank s1 s2 p fuel1 fuel2 Hres Hne Hp1 Hp2 Hun1 Hun2 Hfuel1 Hfuel2.
    pose proof HInv as [Hwf _].
    destruct (parent_Some_lt _ _ _ Hwf Hp1) as [_ Hs1].
    destruct (parent_Some_lt _ _ _ Hwf Hp2) as [_ Hs2].
    destruct (get_returns rank s1 fuel1 id w) as (v1 & w1 & Hget1); [by eauto..|].
    pose proof (get_changes fuel1 s1 id w _ w1 Hget1) as (Hregs1 & Hparents1 & _).
    destruct (get_returns rank s2 fuel2 id w1) as (v2 & w2 & Hget2).
    { by rewrite Hregs1. }
    { by eapply tree_wf_ext. }
    { by rewrite (length_nodes_ext w w1). }
    { rewrite Hregs1. by eauto. }
    { done. }
    exists v1, w1, v2, w2. split; [done|]. split; [done|].
    destruct (siblings_each_construct w id r s1 s2 p fuel1 fuel2 v1 v2 w1 w2)
      as (_ & _ & _ & Hst2 & Hkept); [done..|].
    split; [done|]. split; [done|]. intros [ctor Hctor].
    by destruct (siblings_construct_apart w id r ctor s1 s2 p fuel1 fuel2 v1 v2 w1 w2).
  - intros p fuel v w1 Hp Hget Hv fuel2 Hfuel2.
    pose proof (get_changes fuel p id w _ w1 Hget) as Hch1.
    pose proof (Inv_changes _ _ _ HInv Hch1) as [Hwf1 _].
    destruct Hch1 as (Hregs1 & Hparents1 & _).
    assert (Hp1 : p < length (nodes w1)) by by rewrite (length_nodes_ext w w1).
    assert (Hwalk : forall f, p < f -> getScopedInstance f w1 p id = Some v).
    { intros f Hf.
      apply get_inv in Hget as (fuel' & -> & Hcases). rewrite Hr in Hcases.
      destruct Hcases as [(_ & -> & inst & [= <-] & _ & Hwalk)|[_ Hrun]].
      - by eapply getScopedInstance_enough.
      - eapply createInstance_stored in Hrun;
          [|intros id'; apply get_changes|apply HInv|done].
        rewrite Hl in Hrun. destruct f as [|f]; [lia|].
        assert (Hcache : cache_get w1 p id = v) by (unfold cache_get; by rewrite Hrun).
        rewrite <- Hcache. apply getScopedInstance_here. by rewrite Hcache. }
    destruct fuel2 as [|[|fuel2]]; [lia|lia|].
    eapply get_hit; [by rewrite <- Hr, <- Hregs1|by rewrite Hl| |done].
    rewrite (getScopedInstance_parent _ _ _ p).
    + rewrite <- (Hwalk fuel2) by lia. apply getScopedInstance_agree.
      intros n Hn. apply (on_chain_le _ _ _ Hwf1) in Hn.
      unfold cache_get. rewrite node_at_scope. rewrite decide_False by lia. done.
    + rewrite node_at_scope. simpl. by rewrite decide_True.
    + unfold cache_get. rewrite node_at_scope. simpl. by rewrite decide_True.
Qed.

(** The theorem at a scoped class (two children of the root construct
    [VObj 0] and [VObj 1]; a scope under the first inherits [VObj 0]) and at
    a scoped factory that hands out one shared object: each child still
    runs the factory and caches the result in its own node. *)
Lemma scoped_isolation_and_inheritance_witness :
  (VObj 0 <> VObj 1 /\
   instances (node_at (after_get 3 1 "RequestScopedService" (two_scopes request_world)) 1)
     !! "RequestScopedService" = Some (VObj 0) /\
   instances (node_at (after_get 3 2 "RequestScopedService"
                         (after_get 3 1 "RequestScopedService" (two_scopes request_world))) 2)
     !! "RequestScopedService" = Some (VObj 1)) /\
  (exists v1 w1 v2 w2,
     get 3 1 "RequestScopedService" (two_scopes request_world) = Some (Ok v1, w1) /\
     get 4 2 "RequestScopedService" w1 = Some (Ok v2, w2) /\ v1 <> v2) /\
  get 4 (fst (createScopedContainer 1
                (after_get 3 1 "RequestScopedService" (two_scopes request_world))))
    "RequestScopedService"
    (snd (createScopedContainer 1
            (after_get 3 1 "RequestScopedService" (two_scopes request_world)))) =
  Some (Ok (VObj 0),
        snd (createScopedContainer 1
               (after_get 3 1 "RequestScopedService" (two_scopes request_world)))) /\
  (instances (node_at (after_get 3 2 "Settings"
                         (after_get 3 1 "Settings" (scoped_factory_world shared_factory))) 1)
     !! "Settings" = Some sharedSettings /\
   instances (node_at (after_get 3 2 "Settings"
                         (after_get 3 1 "Settings" (scoped_factory_world shared_factory))) 2)
     !! "Settings" = Some sharedSettings).
Proof.
  destruct (scoped_isolation_and_inheritance (two_scopes request_world)
              "RequestScopedService"
              (useClass (class "RequestScopedService") [] lt_scoped))
    as (Hisolation & Hreturns & Hinheritance).
  { apply two_scopes_reachable; [apply request_world_reachable|simpl; lia]. }
  { reflexivity. }
  { reflexivity. }
  destruct (scoped_isolation_and_inheritance (scoped_factory_world shared_factory)
              "Settings" (useFactory shared_factory lt_scoped))
    as (Hfactory & _ & _).
  { apply two_scopes_reachable; [|by vm_compute].
    unfold shared_factory. built. }
  { reflexivity. }
  { reflexivity. }
  split; [|split; [|split]].
  - destruct (Hisolation 1 2 0 3 3 (VObj 0)
                (after_get 3 1 "RequestScopedService" (two_scopes request_world))
                (VObj 1)
                (after_get 3 2 "RequestScopedService"
                   (after_get 3 1 "RequestScopedService" (two_scopes request_world))))
      as (_ & _ & H1 & H2 & _ & Hdistinct).
    + done.
    + reflexivity.
    + reflexivity.
    + by apply (walk_falsy_unresolved 3 _ _ _ VUndefined).
    + by apply (walk_falsy_unresolved 3 _ _ _ VUndefined).
    + by vm_compute.
    + by vm_compute.
    + split; [apply Hdistinct; by eexists|]. by split.
  - destruct (Hreturns (fun _ => 0) 1 2 0 3 4)
      as (v1 & w1 & v2 & w2 & Hget1 & Hget2 & _ & _ & Hdistinct).
    + apply request_world_resolvable.
    + done.
    + reflexivity.
    + reflexivity.
    + by apply (walk_falsy_unresolved 3 _ _ _ VUndefined).
    + by apply (walk_falsy_unresolved 3 _ _ _ VUndefined).
    + simpl. lia.
    + simpl. lia.
    + exists v1, w1, v2, w2. split; [done|]. split; [done|].
      apply Hdistinct. by eexists.
  - apply (Hinheritance 1 3 (VObj 0)
             (after_get 3 1 "RequestScopedService" (two_scopes request_world))).
    + simpl. lia.
    + by vm_compute.
    + reflexivity.
    + lia.
  - destruct (Hfactory 1 2 0 3 3 sharedSettings
                (after_get 3 1 "Settings" (scoped_factory_world shared_factory))
                sharedSettings
                (after_get 3 2 "Settings"
                   (after_get 3 1 "Settings" (scoped_factory_world shared_factory))))
      as (_ & _ & _ & H2 & H1 & _).
    + done.
    + reflexivity.
    + reflexivity.
    + by apply (walk_falsy_unresolved 3 _ _ _ VUndefined).
    + by apply (walk_falsy_unresolved 3 _ _ _ VUndefined).
    + by vm_compute.
    + by vm_compute.
    + by split.
Defined.

(** C6 (as stated) fails: when the root has resolved the scoped identifier,
    its two children both inherit the root's instance. *)
Lemma scoped_isolation_fails_under_resolved_parent :
  reachable root_resolved_world /\
  jsmap_get (registrations root_resolved_world) "RequestScopedService" =
    Some (useClass (class "RequestScopedService") [] lt_scoped) /\
  ~ scoped_isolation root_resolved_world "RequestScopedService".
Proof.
  split; [|split; [reflexivity|]].
  - apply two_scopes_reachable; [|by vm_compute].
    apply reachable_after_get; [apply request_world_reachable|simpl; lia].
  - intros Hclaim.
    by apply (Hclaim 1 2 0 3 (VObj 0) root_resolved_world (VObj 0) root_resolved_world).
Qed.

(** A factory decides itself what it returns: two siblings whose scoped
    factory hands out one shared object hold the same instance. *)
Lemma scoped_factory_may_share :
  unresolved (scoped_factory_world (fun _ => FRet sharedSettings)) 1 "Settings" /\
  unresolved (scoped_factory_world (fun _ => FRet sharedSettings)) 2 "Settings" /\
  fst <$> get 3 1 "Settings" (scoped_factory_world (fun _ => FRet sharedSettings)) =
    Some (Ok sharedSettings) /\
  fst <$> get 3 2 "Settings"
            (after_get 3 1 "Settings" (scoped_factory_world (fun _ => FRet sharedSettings))) =
    Some (Ok sharedSettings).
Proof.
  split; [by apply (walk_falsy_unresolved 3 _ _ _ VUndefined)|].
  split; [by apply (walk_falsy_unresolved 3 _ _ _ VUndefined)|].
  split; by vm_compute.
Qed.

(** A falsy scoped instance is not inherited: the scope created under the
    node that resolved it runs the factory again. *)
Lemma scoped_falsy_not_inherited :
  fst <$> get 3 1 "Settings" (scoped_factory_world (returning VNull)) = Some (Ok VNull) /\
  length (objects (after_get 3 1 "Settings" (scoped_factory_world (returning VNull)))) = 1 /\
  length (objects
    (after_get 4 3 "Settings"
       (snd (createScopedContainer 1
               (after_get 3 1 "Settings" (scoped_factory_world (returning VNull))))))) = 2.
Proof. repeat split; by vm_compute. Qed.

(** ** Transient lifetime *)

Lemma get_many_transient fuel c id r n :
  forall w vs w',
    jsmap_get (registrations w) id = Some r -> lifetime r = lt_transient ->
    get_many fuel c id n w = Some (Ok vs, w') ->
    Changes c w w' /\ length vs = n /\
    forall ctor, constructor r = Some ctor ->
      NoDup vs /\
      Forall (fun v => exists m, v = VObj m /\
                length (objects w) <= m < length (objects w')) vs.
Proof.
  induction n as [|n IH]; intros w vs w' Hr Hl; simpl.
  - intros [= <- <-]. split; [reflexivity|]. split; [done|].
    intros ctor _. split; constructor.
  - unfold bind at 1.
    destruct (get fuel c id w) as [[[v|e] w1]|] eqn:Hget; [|done..].
    unfold bind.
    destruct (get_many fuel c id n w1) as [[[vs'|e] w2]|] eqn:Hmany; [|done..].
    intros [= <- <-].
    pose proof (get_changes fuel c id w _ w1 Hget) as Hch1.
    assert (Hr1 : jsmap_get (registrations w1) id = Some r).
    { destruct Hch1 as (-> & _). done. }
    destruct (IH w1 vs' w2 Hr1 Hl Hmany) as (Hch2 & Hlen & Hfresh).
    split; [by transitivity w1|]. split; [simpl; by rewrite Hlen|].
    intros ctor Hctor. destruct (Hfresh ctor Hctor) as [Hnd Hall].
    destruct (get_fresh fuel c id r ctor w v w1) as (m & -> & Hm); [by eauto..|].
    destruct Hch1 as (_ & _ & Hlen1 & _), Hch2 as (_ & _ & Hlen2 & _).
    split.
    + constructor; [|done]. intros Hin.
      rewrite Forall_forall in Hall. destruct (Hall _ Hin) as (m' & [= <-] & Hm'). lia.
    + constructor; [exists m; split; [done|lia]|].
      eapply Forall_impl; [exact Hall|]. intros v (m' & -> & Hm').
      exists m'. split; [done|lia].
Qed.

Lemma get_many_returns (rank : Identifier -> nat) (this fuel : nat) (id : Identifier)
    (n : nat) :
  forall w,
    resolvable (registrations w) rank -> tree_wf w -> this < length (nodes w) ->
    is_Some (jsmap_get (registrations w) id) ->
    rank id + this + 2 <= fuel ->
    exists vs w', get_many fuel this id n w = Some (Ok vs, w').
Proof.
  induction n as [|n IH]; intros w Hres Hwf Hthis Hid Hfuel; simpl; [by eexists _, _|].
  destruct (get_returns rank this fuel id w) as (v & w1 & Hget); [done..|].
  pose proof (get_changes fuel this id w _ w1 Hget) as (Hregs & Hparents & _).
  destruct (IH w1) as (vs & w2 & Hmany).
  { by rewrite Hregs. }
  { by eapply tree_wf_ext. }
  { by rewrite (length_nodes_ext w w1). }
  { by rewrite Hregs. }
  { done. }
  exists (v :: vs), w2. unfold bind. by rewrite Hget, Hmany.
Qed.

(** C7 (amended). For an identifier registered as transient, [get] never
    looks at a cache: every call runs [createInstance]; over resolvable
    registrations [n] calls on one node return [n] instances; no node's
    cache entry under the identifier itself is created or changed by them
    (what the construction resolves on the way is cached under its own
    identifier); and when the registration is constructor-based the [n]
    instances are pairwise distinct. *)
Theorem transient_always_constructs (w : World) (this : nat) (id : Identifier)
    (r : Registration) :
  jsmap_get (registrations w) id = Some r ->
  lifetime r = lt_transient ->
  (forall fuel,
     get (S fuel) this id w = createInstance (get fuel this) fuel this id r w) /\
  (forall rank fuel n,
     resolvable (registrations w) rank -> reachable w -> this < length (nodes w) ->
     rank id + this + 2 <= fuel ->
     exists vs w', get_many fuel this id n w = Some (Ok vs, w')) /\
  (forall fuel n vs w',
     get_many fuel this id n w = Some (Ok vs, w') ->
     length vs = n /\
     (forall k, instances (node_at w' k) !! id = instances (node_at w k) !! id) /\
     (is_Some (constructor r) -> NoDup vs)).
Proof.
  intros Hr Hl. split; [|split].
  - intros fuel. rewrite get_unfold, Hr. by rewrite decide_True.
  - intros rank fuel n Hres Hreach Hthis Hfuel.
    apply (get_many_returns rank); [done| |done|by eauto|done].
    apply (reachable_Inv w Hreach).
  - intros fuel n vs w' Hmany.
    destruct (get_many_transient fuel this id r n w vs w' Hr Hl Hmany)
      as (Hch & Hlen & Hfresh).
    split; [done|]. split.
    + intros k. eapply changes_entry_same; [done..|]. by left.
    + intros [ctor Hctor]. by destruct (Hfresh ctor Hctor).
Qed.

Lemma transient_always_constructs_witness :
  get 2 0 "TransientService" transient_world =
    createInstance (get 1 0) 1 0 "TransientService"
      (useClass (class "TransientService") [] lt_transient) transient_world /\
  (exists vs w', get_many 3 0 "Proxy" 4 proxy_world = Some (Ok vs, w')) /\
  length [VObj 0; VObj 1; VObj 2] = 3 /\
  NoDup [VObj 0; VObj 1; VObj 2].
Proof.
  destruct (transient_always_constructs transient_world 0 "TransientService"
              (useClass (class "TransientService") [] lt_transient))
    as (Hconstructs & _ & Hmany); [reflexivity..|].
  split; [apply Hconstructs|]. split.
  - destruct (transient_always_constructs proxy_world 0 "Proxy"
                (useFactory (fun _ => FGet "DatabaseService" FRet) lt_transient))
      as (_ & Hreturns & _); [reflexivity..|].
    apply (Hreturns (fun id => if decide (id = "Proxy") then 1 else 0) 3 4).
    + apply proxy_world_resolvable.
    + unfold proxy_world. built.
    + simpl. lia.
    + simpl. lia.
  - destruct (Hmany 2 3 [VObj 0; VObj 1; VObj 2]
                (after_get 2 0 "TransientService"
                   (after_get 2 0 "TransientService"
                      (after_get 2 0 "TransientService" transient_world))))
      as (Hlen & _ & Hnd); [by vm_compute|].
    split; [exact Hlen|]. apply Hnd. by eexists.
Defined.

(** C7 (as stated) fails: a transient whose factory resolves a singleton
    hands out the same object twice, and the first call fills the root's
    cache with that singleton. *)
Lemma transient_fresh_fails_for_factory :
  reachable proxy_world /\
  lifetime <$> jsmap_get (registrations proxy_world) "Proxy" = Some lt_transient /\
  fst <$> get_many 3 0 "Proxy" 2 proxy_world = Some (Ok [VObj 0; VObj 0]) /\
  instances (node_at (after_get 3 0 "Proxy" proxy_world) 0) !! "DatabaseService" =
    Some (VObj 0) /\
  ~ transient_fresh proxy_world 0 "Proxy".
Proof.
  split; [unfold proxy_world; built|]. do 3 (split; [by vm_compute|]).
  intros Hclaim.
  destruct (Hclaim 3 2 [VObj 0; VObj 0]
              (after_get 3 0 "Proxy" (after_get 3 0 "Proxy" proxy_world)))
    as [Hnd Hnodes]; [by vm_compute|].
  apply NoDup_cons in Hnd as [Hnotin _]. apply Hnotin. by left.
Qed.

(** ** [override] *)

Lemma override_get_self this id inst w fuel :
  this < length (nodes w) -> truthy inst = true ->
  get (S (S fuel)) this id (override this id inst w) =
  Some (Ok inst, override this id inst w).
Proof.
  intros Hthis Hinst.
  eapply get_hit with (r := override_registration inst).
  - unfold override. simpl. apply jsmap_get_set_eq.
  - done.
  - assert (Hcache : cache_get (override this id inst w) this id = inst).
    { unfold cache_get, override. rewrite cache_set_lookup; done. }
    rewrite <- Hcache at 2. apply getScopedInstance_here. by rewrite Hcache.
  - done.
Qed.

(** The registration written by [override] is the one every node resolves:
    a node whose chain holds no instance gets the override's instance. *)
Lemma override_get_elsewhere s s2 id inst w fuel :
  tree_wf w -> truthy inst = true -> s2 < fuel ->
  unresolved (override s id inst w) s2 id ->
  get (S fuel) s2 id (override s id inst w) =
  Some (Ok inst, cache_set s2 id inst (override s id inst w)).
Proof.
  intros Hwf Hinst Hfuel Hun.
  rewrite (get_miss fuel s2 id (override_registration inst)); [| |  |done..].
  - unfold createInstance, bind, construct, populate, store. simpl. by rewrite Hinst.
  - eapply tree_wf_ext; [|exact Hwf]. unfold override. by rewrite parents_cache_set.
  - unfold override. simpl. apply jsmap_get_set_eq.
Qed.

(** C2 (the code at the claim's input). [DatabaseService] is a singleton
    class; scopes [1] and [2] are children of the root; scope [1] overrides
    it with a mock. Scope [1] then gets the mock, and so does scope [2],
    which never called [override] and would have received an instance of
    the class without the override. *)
Theorem override_reaches_sibling :
  get 3 1 "DatabaseService" override_world = Some (Ok mockDb, override_world) /\
  get 3 2 "DatabaseService" override_world =
    Some (Ok mockDb, cache_set 2 "DatabaseService" mockDb override_world) /\
  fst <$> get 3 2 "DatabaseService" (two_scopes database_world) = Some (Ok (VObj 0)).
Proof. repeat split; by vm_compute. Qed.
